(** * CarGarageContract: a shallow embedding of the car-garage chaincode

    Source: [src/chaincode-typescript/src/garage/cars/controller.ts].

    The contract is a class of transaction functions over the Fabric stub
    ([getState], [putState], [deleteState], [getStateByRange]). Every write
    goes through [Buffer.from(stringify(sortKeysRecursive(asset)))].

    The file has two parts. The first holds the definitions:
    - [jsval], the JavaScript values the contract handles;
    - what the contract imports: [JSON.stringify] and [JSON.parse] of the
      language, [stringify] of json-stringify-deterministic,
      [sortKeysRecursive] of sort-keys-recursive, and the stub of
      fabric-contract-api, each after its documentation;
    - the transaction monad [tx] over the world state;
    - the contract, one definition per method under the method's name;
    - the [Cars] entity and the notions the statements use.
    The second part holds the proofs; it ends with one theorem per claim and
    with further properties of the contract.

    Modelling conventions.
    - A JavaScript string is a Rocq [string]: the bytes of its UTF-8 form.
      [Buffer.from(s)] and [buf.toString()] are then the identity, and the
      length of a buffer is the length of the string. Keys are ordered byte
      by byte, which is the order of JavaScript for the names used here. A
      surrogate on its own has no UTF-8 form: a text that names one in an
      escape is outside the modelled fragment.
    - A JavaScript number is an integer [Z]. JavaScript holds an integer
      exactly up to 2^53 - 1 in absolute value and prints it in decimal; a
      JSON literal with a fraction or an exponent is outside the modelled
      fragment, and [JSON_parse] refuses it. The statements that depend on a
      number, or on a text not being JSON, are made for safe integers and
      for texts of the fragment ([safe_integer], [supported]).
    - An object is the list of its own properties in insertion order, each
      name once, and every property is data. The statements on what is
      encoded are made for values without a property named like a method
      ([plain]).
    - What the stub does with a key that is not a string is a parameter of
      the contract ([Stub]). A string is taken for a key as it is; the
      statements that add a key or scan the state are made for the keys of
      assets ([simple_key]).
    - Awaiting a promise is sequencing: a transaction function runs alone on
      its context. *)

From Stdlib Require Import ZArith NArith String Ascii List DecimalString DecimalN DecimalFacts.
From stdpp Require Import gmap strings list sorting.

Local Open Scope string_scope.

(** ** JavaScript values *)

#[local] Unset Elimination Schemes.
Inductive jsval : Type :=
  | JUndefined
  | JNull
  | JBool (b : bool)
  | JNum (z : Z)
  | JStr (s : string)
  | JArr (items : list jsval)
  | JObj (fields : list (string * jsval)).
#[local] Set Elimination Schemes.

(** Induction on values, through the lists they nest. *)
Section jsval_ind.
Variable P : jsval → Prop.
Hypothesis Hundefined : P JUndefined.
Hypothesis Hnull : P JNull.
Hypothesis Hbool : ∀ b, P (JBool b).
Hypothesis Hnum : ∀ z, P (JNum z).
Hypothesis Hstr : ∀ s, P (JStr s).
Hypothesis Harr : ∀ l, Forall P l → P (JArr l).
Hypothesis Hobj : ∀ fs, Forall (fun kv => P (snd kv)) fs → P (JObj fs).

Fixpoint jsval_ind (v : jsval) : P v :=
  match v with
  | JUndefined => Hundefined
  | JNull => Hnull
  | JBool b => Hbool b
  | JNum z => Hnum z
  | JStr s => Hstr s
  | JArr l =>
      Harr l ((fix go (l : list jsval) : Forall P l :=
                 match l with
                 | [] => List.Forall_nil P
                 | x :: r => List.Forall_cons P x r (jsval_ind x) (go r)
                 end) l)
  | JObj fs =>
      Hobj fs ((fix go (fs : list (string * jsval))
                  : Forall (fun kv => P (snd kv)) fs :=
                  match fs with
                  | [] => List.Forall_nil _
                  | kv :: r =>
                      List.Forall_cons (fun kv => P (snd kv)) kv r
                        (jsval_ind (snd kv)) (go r)
                  end) fs)
  end.
End jsval_ind.

(** The double quote character, and a helper to write JSON text in examples:
    in [dq s] every apostrophe of [s] stands for a double quote. *)
Definition dquote : ascii := "034"%char.

Fixpoint dq (s : string) : string :=
  match s with
  | "" => ""
  | String c r => String (if Ascii.eqb c "'" then dquote else c) (dq r)
  end.

(** Property lookup [o[k]] in a property list: the first entry wins. *)
Fixpoint assoc {A} (k : string) (l : list (string * A)) : option A :=
  match l with
  | [] => None
  | (k', v) :: r => if decide (k = k') then Some v else assoc k r
  end.

(** [o[k] = v]: overwrite in place, or append a new property. *)
Fixpoint obj_set (k : string) (v : jsval) (fs : list (string * jsval))
  : list (string * jsval) :=
  match fs with
  | [] => [(k, v)]
  | (k', v') :: r =>
      if decide (k = k') then (k, v) :: r else (k', v') :: obj_set k v r
  end.

(** Reading a property of a value: [undefined] when it is missing, and for
    every primitive and array (none of the names the contract reads is an
    own property of those). Reading from [null] or [undefined] throws; the
    callers below check that first. *)
Definition get_prop (v : jsval) (k : string) : jsval :=
  match v with
  | JObj fs => default JUndefined (assoc k fs)
  | _ => JUndefined
  end.

(** ** Printing numbers and strings *)

Definition print_N (n : N) : string := NilEmpty.string_of_uint (N.to_uint n).

Definition print_Z (z : Z) : string :=
  match z with
  | Zneg p => String "-" (print_N (Npos p))
  | _ => print_N (Z.to_N z)
  end.

Definition hex_digit (n : N) : ascii :=
  if (n <? 10)%N then ascii_of_N (48 + n) else ascii_of_N (87 + n).

(** QuoteJSONString, one character. *)
Definition quote_char (c : ascii) : string :=
  let n := N_of_ascii c in
  if Ascii.eqb c dquote then String "\" (String dquote "")
  else if Ascii.eqb c "\" then "\\"
  else if (n =? 8)%N then "\b"
  else if (n =? 12)%N then "\f"
  else if (n =? 10)%N then "\n"
  else if (n =? 13)%N then "\r"
  else if (n =? 9)%N then "\t"
  else if (n <? 32)%N then
    "\u00" +:+ String (hex_digit (n / 16)) (String (hex_digit (n mod 16)) "")
  else String c "".

Fixpoint quote_chars (s : string) : string :=
  match s with
  | "" => ""
  | String c r => quote_char c +:+ quote_chars r
  end.

Definition quote (s : string) : string :=
  String dquote (quote_chars s +:+ String dquote "").

Fixpoint join (sep : string) (l : list string) : string :=
  match l with
  | [] => ""
  | [x] => x
  | x :: r => x +:+ sep +:+ join sep r
  end.
Global Arguments join : simpl never.

(** ** Key orders *)

(** [keys.sort()] with the default comparison. *)
Definition sort_keys (ks : list string) : list string :=
  merge_sort String.le ks.

Fixpoint N_of_digits (acc : N) (s : string) : option N :=
  match s with
  | "" => Some acc
  | String c r =>
      let n := N_of_ascii c in
      if ((48 <=? n) && (n <=? 57))%N then N_of_digits (10 * acc + (n - 48)) r
      else None
  end.

(** A property name that is a canonical array index. *)
Definition array_index (k : string) : option N :=
  match k with
  | "" => None
  | _ =>
    match N_of_digits 0 k with
    | Some n => if (String.eqb (print_N n) k && (n <? 4294967295)%N)%bool
                then Some n else None
    | None => None
    end
  end.

(** OrdinaryOwnPropertyKeys: array indices in ascending order, then the
    other names in insertion order. *)
Definition own_property_keys (ks : list string) : list string :=
  (print_N <$> merge_sort N.le (omap array_index ks))
  ++ filter (fun k => array_index k = None) ks.

(** ** Serialisation

    [serialize order] is SerializeJSONProperty with the keys of every object
    enumerated by [order]. It yields [None] where JavaScript yields
    [undefined]. An [undefined] array element prints as [null]; an
    [undefined] property is left out. *)
Section serialize.
Variable order : list string → list string.

Definition member (ss : list (string * option string)) (k : string)
  : option string :=
  match assoc k ss with
  | Some (Some s) => Some (quote k +:+ ":" +:+ s)
  | _ => None
  end.

Fixpoint serialize (v : jsval) : option string :=
  match v with
  | JUndefined => None
  | JNull => Some "null"
  | JBool true => Some "true"
  | JBool false => Some "false"
  | JNum z => Some (print_Z z)
  | JStr s => Some (quote s)
  | JArr l =>
      Some ("[" +:+ join "," (map (fun x => default "null" (serialize x)) l)
                +:+ "]")
  | JObj fs =>
      let ss := map (fun kv => (fst kv, serialize (snd kv))) fs in
      Some ("{" +:+ join "," (omap (member ss) (order (map fst fs)))
                +:+ "}")
  end.
End serialize.

(** The built-in [JSON.stringify(v)]. *)
Definition JSON_stringify : jsval → option string :=
  serialize own_property_keys.

(** [stringify] of json-stringify-deterministic with default options: the
    keys of every object are taken as [Object.keys(node).sort()]. The
    library first calls [node.toJSON()] where a node has a [toJSON]; no
    value of the contract has one that is a function, and the statements
    leave out those with a property of that name ([plain]). *)
Definition stringify : jsval → option string :=
  serialize sort_keys.

(** ** sort-keys-recursive *)

(** [String(v)], as the default comparison of [Array.prototype.sort] sees
    the elements of an array. *)
Fixpoint to_string (v : jsval) : string :=
  match v with
  | JUndefined => "undefined"
  | JNull => "null"
  | JBool true => "true"
  | JBool false => "false"
  | JNum z => print_Z z
  | JStr s => s
  | JArr l =>
      join "," (map (fun x => match x with
                              | JUndefined | JNull => ""
                              | _ => to_string x
                              end) l)
  | JObj _ => "[object Object]"
  end.

(** SortCompare without a comparison function: [undefined] goes last,
    everything else is ordered by its string form. *)
Definition sort_le (x y : jsval) : Prop :=
  match x, y with
  | _, JUndefined => True
  | JUndefined, _ => False
  | _, _ => String.le (to_string x) (to_string y)
  end.

Global Instance sort_le_dec x y : Decision (sort_le x y).
Proof. unfold sort_le; destruct x, y; apply _. Defined.

(** [newObj[key] = obj[key]] for one of the sorted keys. *)
Definition sorted_field (fs' : list (string * jsval)) (k : string)
  : option (string * jsval) :=
  match assoc k fs' with
  | Some v' => Some (k, v')
  | None => None
  end.

(** [Array.prototype.sort] without a comparison function, on a copy of the
    array. The sort is stable: elements that compare equal keep their
    order. *)
Fixpoint insert_sorted (x : jsval) (l : list jsval) : list jsval :=
  match l with
  | [] => [x]
  | y :: r => if decide (sort_le x y) then x :: y :: r
              else y :: insert_sorted x r
  end.

Definition array_sort (l : list jsval) : list jsval :=
  foldr insert_sorted [] l.

(** [sortKeysRecursive(v)]: a copy of [v] in which every object has its keys
    in ascending order, and so have the objects that are its properties; an
    array is sorted, and its elements are left as they are. *)
Fixpoint sortKeysRecursive (v : jsval) : jsval :=
  match v with
  | JArr l => JArr (array_sort l)
  | JObj fs =>
      let fs' := map (fun kv => (fst kv, sortKeysRecursive (snd kv))) fs in
      JObj (omap (sorted_field fs') (sort_keys (map fst fs)))
  | _ => v
  end.

(** The bytes handed to [putState]:
    [Buffer.from(stringify(sortKeysRecursive(asset)))].
    [Buffer.from(undefined)] throws a TypeError, hence the option. *)
Definition Encode (asset : jsval) : option string :=
  stringify (sortKeysRecursive asset).

(** ** JSON.parse *)

Definition is_ws (c : ascii) : bool :=
  let n := N_of_ascii c in
  ((n =? 32) || (n =? 9) || (n =? 10) || (n =? 13))%N.

Fixpoint skip_ws (s : string) : string :=
  match s with
  | String c r => if is_ws c then skip_ws r else s
  | "" => ""
  end.

Definition hex_val (c : ascii) : option N :=
  let n := N_of_ascii c in
  if ((48 <=? n) && (n <=? 57))%N then Some (n - 48)%N
  else if ((97 <=? n) && (n <=? 102))%N then Some (n - 87)%N
  else if ((65 <=? n) && (n <=? 70))%N then Some (n - 55)%N
  else None.

Definition hex4 (a b c d : ascii) : option N :=
  match hex_val a, hex_val b, hex_val c, hex_val d with
  | Some x, Some y, Some z, Some w => Some (4096 * x + 256 * y + 16 * z + w)%N
  | _, _, _, _ => None
  end.

Definition byte_string (l : list N) : string :=
  string_of_list_ascii (map ascii_of_N l).

(** The UTF-8 form of a code point. *)
Definition utf8 (n : N) : string :=
  if (n <? 128)%N then byte_string [n]
  else if (n <? 2048)%N then byte_string [192 + n / 64; 128 + n mod 64]%N
  else if (n <? 65536)%N then
    byte_string [224 + n / 4096; 128 + (n / 64) mod 64; 128 + n mod 64]%N
  else
    byte_string [240 + n / 262144; 128 + (n / 4096) mod 64;
                 128 + (n / 64) mod 64; 128 + n mod 64]%N.

Definition is_high_surrogate (n : N) : bool := ((55296 <=? n) && (n <? 56320))%N.
Definition is_low_surrogate (n : N) : bool := ((56320 <=? n) && (n <? 57344))%N.

(** The character a one-letter escape stands for. *)
Definition simple_escape (e : ascii) : option ascii :=
  if Ascii.eqb e dquote then Some dquote
  else if Ascii.eqb e "\" then Some "\"%char
  else if Ascii.eqb e "/" then Some "/"%char
  else if Ascii.eqb e "b" then Some "008"%char
  else if Ascii.eqb e "f" then Some "012"%char
  else if Ascii.eqb e "n" then Some "010"%char
  else if Ascii.eqb e "r" then Some "013"%char
  else if Ascii.eqb e "t" then Some "009"%char
  else None.

(** [x] in front of the characters that follow it. *)
Definition cons_text (x : string) (p : option (string * string))
  : option (string * string) :=
  match p with
  | Some (t, r) => Some (x +:+ t, r)
  | None => None
  end.

(** The characters of a string literal, after its opening quote, up to and
    including the closing quote. An escaped surrogate pair is one code point;
    a surrogate on its own has no UTF-8 form and becomes U+FFFD, as
    [Buffer.from] writes it. *)
Fixpoint parse_chars (s : string) : option (string * string) :=
  match s with
  | "" => None
  | String c r =>
    if Ascii.eqb c dquote then Some ("", r)
    else if Ascii.eqb c "\" then
      match r with
      | "" => None
      | String e r1 =>
        if Ascii.eqb e "u" then
          match r1 with
          | String h1 (String h2 (String h3 (String h4 r2))) =>
            match hex4 h1 h2 h3 h4 with
            | None => None
            | Some hi =>
              let single :=
                cons_text
                  (if (is_high_surrogate hi || is_low_surrogate hi)%bool
                   then utf8 65533 else utf8 hi)
                  (parse_chars r2) in
              if is_high_surrogate hi then
                match r2 with
                | String b (String u
                    (String l1 (String l2 (String l3 (String l4 r3))))) =>
                  match hex4 l1 l2 l3 l4 with
                  | Some lo =>
                    if (Ascii.eqb b "\" && Ascii.eqb u "u"
                        && is_low_surrogate lo)%bool
                    then
                      cons_text
                        (utf8 (65536 + 1024 * (hi - 55296) + (lo - 56320)))
                        (parse_chars r3)
                    else single
                  | None => single
                  end
                | _ => single
                end
              else single
            end
          | _ => None
          end
        else
          match simple_escape e with
          | Some x => cons_text (String x "") (parse_chars r1)
          | None => None
          end
      end
    else if (N_of_ascii c <? 32)%N then None
    else cons_text (String c "") (parse_chars r)
  end.

Definition digit_of (c : ascii) : option (Decimal.uint → Decimal.uint) :=
  match c with
  | "0"%char => Some Decimal.D0 | "1"%char => Some Decimal.D1
  | "2"%char => Some Decimal.D2 | "3"%char => Some Decimal.D3
  | "4"%char => Some Decimal.D4 | "5"%char => Some Decimal.D5
  | "6"%char => Some Decimal.D6 | "7"%char => Some Decimal.D7
  | "8"%char => Some Decimal.D8 | "9"%char => Some Decimal.D9
  | _ => None
  end.

Fixpoint read_digits (s : string) : Decimal.uint * string :=
  match s with
  | "" => (Decimal.Nil, "")
  | String c r =>
      match digit_of c with
      | Some d => let (u, r') := read_digits r in (d u, r')
      | None => (Decimal.Nil, s)
      end
  end.

(** An unsigned integer literal: [0], or digits that do not start with [0].
    A fraction or an exponent after it is outside the modelled fragment. *)
Definition parse_nat (s : string) : option (N * string) :=
  let (u, r) := read_digits s in
  match u with
  | Decimal.Nil => None
  | Decimal.D0 (Decimal.D0 _ | Decimal.D1 _ | Decimal.D2 _ | Decimal.D3 _
               | Decimal.D4 _ | Decimal.D5 _ | Decimal.D6 _ | Decimal.D7 _
               | Decimal.D8 _ | Decimal.D9 _) => None
  | _ =>
    match r with
    | String "."%char _ | String "e"%char _ | String "E"%char _ => None
    | _ => Some (N.of_uint u, r)
    end
  end.

Definition parse_number (s : string) : option (jsval * string) :=
  match s with
  | String "-"%char r =>
      match parse_nat r with
      | Some (n, r') => Some (JNum (- Z.of_N n), r')
      | None => None
      end
  | _ =>
      match parse_nat s with
      | Some (n, r') => Some (JNum (Z.of_N n), r')
      | None => None
      end
  end.

(** The value grammar. [fuel] bounds the number of nested calls; every call
    consumes a character before it calls again, so the length of the text is
    enough ([parse_value_fuel]). Properties are defined as they are read:
    a repeated name overwrites the earlier value. *)
Fixpoint parse_value (fuel : nat) (s : string) : option (jsval * string) :=
  match fuel with
  | O => None
  | S fuel =>
    match skip_ws s with
    | "" => None
    | String c r =>
      if Ascii.eqb c dquote then
        match parse_chars r with
        | Some (t, r') => Some (JStr t, r')
        | None => None
        end
      else match c with
      | "{"%char =>
          match skip_ws r with
          | String "}"%char r' => Some (JObj [], r')
          | _ => parse_members fuel [] r
          end
      | "["%char =>
          match skip_ws r with
          | String "]"%char r' => Some (JArr [], r')
          | _ => parse_elements fuel [] r
          end
      | "t"%char =>
          match r with
          | String "r" (String "u" (String "e" r')) => Some (JBool true, r')
          | _ => None
          end
      | "f"%char =>
          match r with
          | String "a" (String "l" (String "s" (String "e" r'))) =>
              Some (JBool false, r')
          | _ => None
          end
      | "n"%char =>
          match r with
          | String "u" (String "l" (String "l" r')) => Some (JNull, r')
          | _ => None
          end
      | _ => parse_number (String c r)
      end
    end
  end
with parse_members (fuel : nat) (acc : list (string * jsval)) (s : string)
  : option (jsval * string) :=
  match fuel with
  | O => None
  | S fuel =>
    match skip_ws s with
    | "" => None
    | String c r =>
      if Ascii.eqb c dquote then
        match parse_chars r with
        | None => None
        | Some (k, r1) =>
          match skip_ws r1 with
          | String ":"%char r2 =>
            match parse_value fuel r2 with
            | None => None
            | Some (v, r3) =>
              match skip_ws r3 with
              | String ","%char r4 => parse_members fuel (obj_set k v acc) r4
              | String "}"%char r4 => Some (JObj (obj_set k v acc), r4)
              | _ => None
              end
            end
          | _ => None
          end
        end
      else None
    end
  end
with parse_elements (fuel : nat) (acc : list jsval) (s : string)
  : option (jsval * string) :=
  match fuel with
  | O => None
  | S fuel =>
    match parse_value fuel s with
    | None => None
    | Some (v, r) =>
      match skip_ws r with
      | String ","%char r' => parse_elements fuel (acc ++ [v]) r'
      | String "]"%char r' => Some (JArr (acc ++ [v]), r')
      | _ => None
      end
    end
  end.

(** [JSON.parse(text)]: [None] stands for the SyntaxError. *)
Definition JSON_parse (text : string) : option jsval :=
  match parse_value (S (String.length text)) text with
  | Some (v, r) => match skip_ws r with "" => Some v | _ => None end
  | None => None
  end.

(** ** World state and transactions

    The world state maps a key to the bytes stored under it. A transaction
    function is run with the stub of its context: it reads and writes the
    world state and either returns or throws. The state in the result is the
    state reached when the function returned or threw, so a write made before
    a throw is visible in the model.

    No function of the contract reads a key after writing it, so the stub's
    writes are applied at once. *)

Inductive exn : Type :=
  | Error (message : string)   (* [throw new Error(message)] *)
  | SyntaxError                (* [JSON.parse] on text that is not JSON *)
  | TypeError                  (* property access on [null], [Buffer.from(undefined)], ... *)
  | StubError.                 (* a fault of the stub *)

Definition tx (A : Type) : Type :=
  gmap string string → (exn + A) * gmap string string.

Definition ret {A} (x : A) : tx A := fun ws => (inr x, ws).
Definition throw {A} (e : exn) : tx A := fun ws => (inl e, ws).
Definition bind {A B} (m : tx A) (k : A → tx B) : tx B :=
  fun ws => match m ws with
            | (inr x, ws') => k x ws'
            | (inl e, ws') => (inl e, ws')
            end.

Notation "'let!' x ':=' m 'in' k" := (bind m (fun x => k))
  (at level 10, x pattern, m at level 100, k at level 200).

(** *** The stub

    The shim declares its keys as strings, and that is how [Read], [Delete],
    [Exists], [Transfer] and the bootstrap call it. [Create] and [Update]
    hand it the [ID] of the parsed input unchecked. What the shim does with a
    key that is not a string is not in the source of the contract, so it is a
    parameter: a call on such a key either faults, and writes nothing, or
    acts on the key the shim makes of the value. *)

Class Stub : Type := {
  other_key : jsval → string;
  getState_fault : jsval → option exn;
  putState_fault : jsval → option exn;
  deleteState_fault : jsval → option exn
}.

(** The stub that takes nothing but strings. *)
Definition strict : Stub :=
  {| other_key := fun _ => "";
     getState_fault := fun _ => Some StubError;
     putState_fault := fun _ => Some StubError;
     deleteState_fault := fun _ => Some StubError |}.

(** The calls on a key that is a string. The ledger takes a write of no
    bytes for a delete. *)
Definition read_key (k : string) : tx string :=
  fun ws => (inr (default "" (ws !! k)), ws).

Definition write_key (k value : string) : tx unit :=
  fun ws =>
    (inr tt, if (String.length value =? 0)%nat then delete k ws
             else <[k := value]> ws).

Definition delete_key (k : string) : tx unit :=
  fun ws => (inr tt, delete k ws).

Section contract.
Context `{stub : Stub}.

(** The key a call acts on, and the fault it raises instead, if any. *)
Definition key_of (key : jsval) : string :=
  match key with
  | JStr k => k
  | _ => other_key key
  end.

Definition fault (other : jsval → option exn) (key : jsval) : option exn :=
  match key with
  | JStr _ => None
  | _ => other key
  end.

Definition getState (key : jsval) : tx string :=
  match fault getState_fault key with
  | Some e => throw e
  | None => read_key (key_of key)
  end.

Definition putState (key : jsval) (value : string) : tx unit :=
  match fault putState_fault key with
  | Some e => throw e
  | None => write_key (key_of key) value
  end.

Definition deleteState (key : jsval) : tx unit :=
  match fault deleteState_fault key with
  | Some e => throw e
  | None => delete_key (key_of key)
  end.

Definition key_le (x y : string * string) : Prop := String.le (fst x) (fst y).

Global Instance key_le_dec x y : Decision (key_le x y).
Proof. unfold key_le; apply _. Defined.

(** [getStateByRange(startKey, endKey)]: the entries with
    [startKey <= key < endKey] in key order; an empty [endKey] is no bound.
    The result is the iterator: the list of the entries still to come. *)
Definition in_range (startKey endKey : string) (kv : string * string) : bool :=
  (String.leb startKey (fst kv)
   && (String.eqb endKey "" || String.ltb (fst kv) endKey))%bool.

Definition getStateByRange (startKey endKey : string)
  : tx (list (string * string)) :=
  fun ws =>
    (inr (merge_sort key_le
            (List.filter (in_range startKey endKey) (map_to_list ws))), ws).

(** *** JavaScript steps that can throw *)

Definition JSON_parse_tx (text : string) : tx jsval :=
  match JSON_parse text with
  | Some v => ret v
  | None => throw SyntaxError
  end.

(** [Buffer.from(s)] *)
Definition Buffer_from (s : option string) : tx string :=
  match s with
  | Some b => ret b
  | None => throw TypeError
  end.

(** [v.k], and the destructuring [const { k, ... } = v] *)
Definition read_prop (v : jsval) (k : string) : tx jsval :=
  match v with
  | JUndefined | JNull => throw TypeError
  | _ => ret (get_prop v k)
  end.

(** [v.k = x] in strict code. On an array the new property is not an element:
    neither [sortKeysRecursive] nor [stringify] sees it. *)
Definition write_prop (v : jsval) (k : string) (x : jsval) : tx jsval :=
  match v with
  | JObj fs => ret (JObj (obj_set k x fs))
  | JArr l => ret (JArr l)
  | _ => throw TypeError
  end.

(** ** The contract *)

Definition assets : list jsval :=
  [ JObj [("ID", JStr "assetcar1"); ("Model", JStr "Honda Accord");
          ("Color", JStr "Silver"); ("Owner", JStr "Ajith");
          ("Year", JNum 2023); ("VIN", JStr "AB12CD345671");
          ("EngineType", JStr "4-cylinder Diesel"); ("Mileage", JNum 10)];
    JObj [("ID", JStr "assetcar2"); ("Model", JStr "Toyota Camry");
          ("Color", JStr "White"); ("Owner", JStr "Emma");
          ("Year", JNum 2019); ("VIN", JStr "AB12CD345678");
          ("EngineType", JStr "6-cylinder Petrol"); ("Mileage", JNum 11)] ].

Fixpoint for_of {A} (l : list A) (body : A → tx unit) : tx unit :=
  match l with
  | [] => ret tt
  | x :: r => let! _ := body x in for_of r body
  end.

Definition InitGarageCarLedger : tx unit :=
  for_of assets (fun asset =>
    let! value := Buffer_from (stringify (sortKeysRecursive asset)) in
    putState (get_prop asset "ID") value).

Definition AssetGarageCarExists (id : jsval) : tx bool :=
  let! assetJSON := getState id in
  ret (0 <? String.length assetJSON)%nat.

Definition CreateGarageCarAsset (json : string) : tx unit :=
  let! parsed := JSON_parse_tx json in
  let! ID := read_prop parsed "ID" in
  let Model := get_prop parsed "Model" in
  let Color := get_prop parsed "Color" in
  let Owner := get_prop parsed "Owner" in
  let Year := get_prop parsed "Year" in
  let VIN := get_prop parsed "VIN" in
  let EngineType := get_prop parsed "EngineType" in
  let Mileage := get_prop parsed "Mileage" in
  let! exists_ := AssetGarageCarExists ID in
  if exists_ : bool then
    throw (Error ("The asset " +:+ to_string ID +:+ " already exists"))
  else
    let asset :=
      JObj [("ID", ID); ("Model", Model); ("Color", Color); ("Owner", Owner);
            ("Year", Year); ("VIN", VIN); ("EngineType", EngineType);
            ("Mileage", Mileage)] in
    let! value := Buffer_from (stringify (sortKeysRecursive asset)) in
    putState ID value.

Definition ReadGarageCarAsset (id : string) : tx string :=
  let! assetJSON := getState (JStr id) in
  if (String.length assetJSON =? 0)%nat then
    throw (Error ("The asset " +:+ id +:+ " does not exist"))
  else ret assetJSON.

Definition UpdateGarageCarAsset (json : string) : tx unit :=
  let! parsed := JSON_parse_tx json in
  let! ID := read_prop parsed "ID" in
  let Model := get_prop parsed "Model" in
  let Color := get_prop parsed "Color" in
  let Owner := get_prop parsed "Owner" in
  let Year := get_prop parsed "Year" in
  let VIN := get_prop parsed "VIN" in
  let EngineType := get_prop parsed "EngineType" in
  let Mileage := get_prop parsed "Mileage" in
  let! exists_ := AssetGarageCarExists ID in
  if negb exists_ then
    throw (Error ("The asset " +:+ to_string ID +:+ " does not exist"))
  else
    let updatedAsset :=
      JObj [("ID", ID); ("Model", Model); ("Color", Color); ("Owner", Owner);
            ("Year", Year); ("VIN", VIN); ("EngineType", EngineType);
            ("Mileage", Mileage)] in
    let! value := Buffer_from (stringify (sortKeysRecursive updatedAsset)) in
    putState ID value.

Definition DeleteGarageCarAsset (id : string) : tx unit :=
  let! exists_ := AssetGarageCarExists (JStr id) in
  if negb exists_ then
    throw (Error ("The asset " +:+ id +:+ " does not exist"))
  else deleteState (JStr id).

Definition TransferGarageCarAsset (id newOwner : string) : tx jsval :=
  let! assetString := ReadGarageCarAsset id in
  let! asset := JSON_parse_tx assetString in
  let! oldOwner := read_prop asset "Owner" in
  let! asset := write_prop asset "Owner" (JStr newOwner) in
  let! value := Buffer_from (stringify (sortKeysRecursive asset)) in
  let! _ := putState (JStr id) value in
  ret oldOwner.

(** The [while (!result.done)] loop of [GetAllGarageCars]: [iterator] is what
    the iterator still holds, [allResults] the array built so far. *)
Fixpoint drain (iterator : list (string * string)) (allResults : list jsval)
  : list jsval :=
  match iterator with
  | [] => allResults
  | result :: iterator' =>
      let strValue := snd result in
      let record :=
        match JSON_parse strValue with
        | Some parsed => parsed
        | None => JStr strValue
        end in
      drain iterator' (allResults ++ [record])
  end.

Definition GetAllGarageCars : tx (option string) :=
  let allResults := [] in
  let! iterator := getStateByRange "" "" in
  let allResults := drain iterator allResults in
  ret (JSON_stringify (JArr allResults)).

(** ** The entity and the failures of the specification *)

(** Modelled from the spec: the [Cars] entity of [entity.ts], which is not
    under src/. Section 3 of the specification gives its eight attributes:
    six strings and two integers. *)
Record Cars : Type := mkCars {
  ID : string;
  Model : string;
  Color : string;
  Owner : string;
  Year : Z;
  VIN : string;
  EngineType : string;
  Mileage : Z
}.

(** The object a [Cars] value is in memory, with its properties in the order
    the contract writes them. *)
Definition js_of_Cars (a : Cars) : jsval :=
  JObj [("ID", JStr (ID a)); ("Model", JStr (Model a));
        ("Color", JStr (Color a)); ("Owner", JStr (Owner a));
        ("Year", JNum (Year a)); ("VIN", JStr (VIN a));
        ("EngineType", JStr (EngineType a)); ("Mileage", JNum (Mileage a))].

Definition as_string (v : jsval) : option string :=
  match v with JStr s => Some s | _ => None end.
Definition as_number (v : jsval) : option Z :=
  match v with JNum z => Some z | _ => None end.

(** Reading a value back as a [Cars]: every attribute present with its type. *)
Definition Cars_of_js (v : jsval) : option Cars :=
  match as_string (get_prop v "ID"), as_string (get_prop v "Model"),
        as_string (get_prop v "Color"), as_string (get_prop v "Owner"),
        as_number (get_prop v "Year"), as_string (get_prop v "VIN"),
        as_string (get_prop v "EngineType"), as_number (get_prop v "Mileage")
  with
  | Some i, Some m, Some c, Some o, Some y, Some n, Some e, Some k =>
      Some (mkCars i m c o y n e k)
  | _, _, _, _, _, _, _, _ => None
  end.

Definition set_Owner (a : Cars) (newOwner : string) : Cars :=
  mkCars (ID a) (Model a) (Color a) newOwner (Year a) (VIN a) (EngineType a)
         (Mileage a).

(** The two failures the contract throws itself. *)
Definition AlreadyExists (id : string) : exn :=
  Error ("The asset " +:+ id +:+ " already exists").
Definition NotFound (id : string) : exn :=
  Error ("The asset " +:+ id +:+ " does not exist").

(** The ledger holds no empty value: [putState] takes a write of no bytes
    for a delete. [getState] returns no bytes for a key that is absent, and
    the contract takes "no bytes" for "absent". *)
Definition ws_ok (ws : gmap string string) : Prop :=
  map_Forall (fun _ value => value ≠ "") ws.

(** The object [CreateGarageCarAsset] and [UpdateGarageCarAsset] build from
    the parsed input. *)
Definition asset_of (parsed : jsval) : jsval :=
  JObj [("ID", get_prop parsed "ID"); ("Model", get_prop parsed "Model");
        ("Color", get_prop parsed "Color"); ("Owner", get_prop parsed "Owner");
        ("Year", get_prop parsed "Year"); ("VIN", get_prop parsed "VIN");
        ("EngineType", get_prop parsed "EngineType");
        ("Mileage", get_prop parsed "Mileage")].

(** What one entry of the range scan becomes in [GetAllGarageCars]. *)
Definition decode_or_raw (strValue : string) : jsval :=
  match JSON_parse strValue with
  | Some parsed => parsed
  | None => JStr strValue
  end.

(** The seed assets of [InitGarageCarLedger], as entities. *)
Definition seed1 : Cars :=
  mkCars "assetcar1" "Honda Accord" "Silver" "Ajith" 2023 "AB12CD345671"
         "4-cylinder Diesel" 10.
Definition seed2 : Cars :=
  mkCars "assetcar2" "Toyota Camry" "White" "Emma" 2019 "AB12CD345678"
         "6-cylinder Petrol" 11.

(** The record as it is stored: the properties in ascending name order. *)
Definition Cars_canonical (a : Cars) : jsval :=
  JObj [("Color", JStr (Color a)); ("EngineType", JStr (EngineType a));
        ("ID", JStr (ID a)); ("Mileage", JNum (Mileage a));
        ("Model", JStr (Model a)); ("Owner", JStr (Owner a));
        ("VIN", JStr (VIN a)); ("Year", JNum (Year a))].

(** The bytes stored for a record. *)
Definition Cars_text (a : Cars) : string :=
  "{" +:+ join ","
    [quote "Color" +:+ ":" +:+ quote (Color a);
     quote "EngineType" +:+ ":" +:+ quote (EngineType a);
     quote "ID" +:+ ":" +:+ quote (ID a);
     quote "Mileage" +:+ ":" +:+ print_Z (Mileage a);
     quote "Model" +:+ ":" +:+ quote (Model a);
     quote "Owner" +:+ ":" +:+ quote (Owner a);
     quote "VIN" +:+ ":" +:+ quote (VIN a);
     quote "Year" +:+ ":" +:+ print_Z (Year a)] +:+ "}".

(** The eight property names of the entity. *)
Definition Cars_keys : list string :=
  ["ID"; "Model"; "Color"; "Owner"; "Year"; "VIN"; "EngineType"; "Mileage"].

(** ** Notions used in the statements *)

(** *** Where the model is exact

    A JavaScript number is a double and a JavaScript string is a sequence of
    UTF-16 code units; the model has integers and UTF-8 bytes. The two agree
    on the integers a double holds exactly and on the texts below, and the
    statements that depend on a number or on the outcome of [JSON.parse] are
    made there. *)

(** The integers a double holds exactly: up to 2^53 - 1 in absolute value. *)
Definition safe_integer (z : Z) : Prop :=
  (- 9007199254740991 ≤ z ≤ 9007199254740991)%Z.

Definition Cars_safe (a : Cars) : Prop :=
  safe_integer (Year a) ∧ safe_integer (Mileage a).

Definition is_digit (c : ascii) : bool :=
  match digit_of c with
  | Some _ => true
  | None => false
  end.

(** The JSON texts of the modelled fragment, by a scan of the text: outside
    a string there is no fraction ([.]), no exponent ([e] or [E] after a
    digit) and no run of more than fifteen digits; inside a string no escape
    names a surrogate ([\ud...]). [in_string] tells whether the scan is inside
    a string, [digits] counts the digits just read. *)
Fixpoint supported_from (in_string : bool) (digits : nat) (s : string) : bool :=
  match s with
  | "" => true
  | String c r =>
      if in_string then
        if Ascii.eqb c "\" then
          match r with
          | String "u" (String d r') =>
              negb (Ascii.eqb d "d" || Ascii.eqb d "D")
              && supported_from true 0 r'
          | String _ r' => supported_from true 0 r'
          | "" => true
          end
        else if Ascii.eqb c dquote then supported_from false 0 r
        else supported_from true 0 r
      else if Ascii.eqb c dquote then supported_from true 0 r
      else if is_digit c then
        (digits <? 15)%nat && supported_from false (S digits) r
      else if Ascii.eqb c "." then false
      else if (Ascii.eqb c "e" || Ascii.eqb c "E") && (0 <? digits)%nat then false
      else supported_from false 0 r
  end.

Definition supported (text : string) : bool := supported_from false 0 text.

(** The keys of the assets. A key is not empty, and a key that starts with
    U+0000 is a composite key, which a range scan leaves out. The model of
    the stub takes every string for a key, so the statements that write
    under a new key or scan the state are made for these keys. *)
Definition simple_key (k : string) : bool :=
  match k with
  | "" => false
  | String c _ => negb (Ascii.eqb c "000")
  end.

(** The property names that stand for a method of every JavaScript object,
    with [toJSON], which json-stringify-deterministic calls when it finds
    it. Sorting an array and building a message turn an object into a
    string, which calls its [toString] or [valueOf]; copying an object
    assigns to [__proto__]. A property of one of these names, which
    [JSON.parse] makes like any other, changes what these calls do: a
    [toJSON] that is not a function makes [stringify] throw. *)
Definition method_names : list string :=
  ["toJSON"; "toString"; "valueOf"; "toLocaleString"; "constructor";
   "hasOwnProperty"; "isPrototypeOf"; "propertyIsEnumerable"; "__proto__";
   "__defineGetter__"; "__defineSetter__"; "__lookupGetter__";
   "__lookupSetter__"].

(** No object of the value, at any depth, has a property of such a name.
    The model takes every property for plain data, so the statements on
    what is encoded are made for these values. *)
Fixpoint plain (v : jsval) : bool :=
  match v with
  | JArr l => forallb plain l
  | JObj fs =>
      forallb (fun kv => negb (bool_decide (fst kv ∈ method_names))
                         && plain (snd kv)) fs
  | _ => true
  end.

(** The values that are stored as they are: [null], booleans, numbers and
    strings. *)
Definition primitive (v : jsval) : bool :=
  match v with
  | JNull | JBool _ | JNum _ | JStr _ => true
  | _ => false
  end.

(** What [Create] and [Update] do with an input that parses to a value
    other than [null], when the record they build is encoded to [value]:
    the existence check on the [ID] read from the input, then the write.
    The [ID] need not be a string, nor be there at all. *)
Definition Create_outcome (id : jsval) (value : string)
    (ws : gmap string string) : (exn + unit) * gmap string string :=
  match fault getState_fault id with
  | Some e => (inl e, ws)
  | None =>
      match ws !! key_of id with
      | Some _ =>
          (inl (Error ("The asset " +:+ to_string id +:+ " already exists")),
           ws)
      | None =>
          match fault putState_fault id with
          | Some e => (inl e, ws)
          | None => (inr tt, <[key_of id := value]> ws)
          end
      end
  end.

Definition Update_outcome (id : jsval) (value : string)
    (ws : gmap string string) : (exn + unit) * gmap string string :=
  match fault getState_fault id with
  | Some e => (inl e, ws)
  | None =>
      match ws !! key_of id with
      | None =>
          (inl (Error ("The asset " +:+ to_string id +:+ " does not exist")),
           ws)
      | Some _ =>
          match fault putState_fault id with
          | Some e => (inl e, ws)
          | None => (inr tt, <[key_of id := value]> ws)
          end
      end
  end.


(** No object of the value has two properties of one name. *)
Fixpoint wf (v : jsval) : bool :=
  match v with
  | JArr l => forallb wf l
  | JObj fs =>
      bool_decide (NoDup (map fst fs)) && forallb (fun kv => wf (snd kv)) fs
  | _ => true
  end.

(** What [JSON.parse] reads back from the serialisation of a value: the
    properties in the order they were written, without those that were
    [undefined], and [null] for an [undefined] element. *)
Definition kept (fs' : list (string * jsval)) (k : string)
  : option (string * jsval) :=
  match assoc k fs' with
  | Some JUndefined | None => None
  | Some v' => Some (k, v')
  end.

Fixpoint decoded (order : list string → list string) (v : jsval) : jsval :=
  match v with
  | JArr l =>
      JArr (map (fun x => match x with
                          | JUndefined => JNull
                          | _ => decoded order x
                          end) l)
  | JObj fs =>
      let fs' := map (fun kv => (fst kv, decoded order (snd kv))) fs in
      JObj (omap (kept fs') (order (map fst fs)))
  | _ => v
  end.

(** What is stored for one property of the input of [Create] or [Update],
    as [JSON.parse] reads it back. *)
Definition stored_form (x : jsval) : jsval :=
  decoded sort_keys (sortKeysRecursive x).

Definition keep (kv : string * jsval) : option (string * jsval) :=
  match snd kv with
  | JUndefined => None
  | _ => Some kv
  end.

(** The record [Create] and [Update] persist for a parsed input: of the
    eight properties, in ascending name order, those the input defines. *)
Definition stored_record (parsed : jsval) : list (string * jsval) :=
  omap keep (map (fun k => (k, stored_form (get_prop parsed k)))
                 (sort_keys Cars_keys)).

(** The claim on [Read] as the specification words it: the value returned is
    the record decoded from the stored bytes, or the stored text itself when
    it does not decode. *)
Definition Read_returns_decoded (ws : gmap string string) (id : string) : Prop :=
  match ws !! id with
  | None => ReadGarageCarAsset id ws = (inl (NotFound id), ws)
  | Some stored =>
      ∃ returned, ReadGarageCarAsset id ws = (inr returned, ws)
                  ∧ JStr returned = decode_or_raw stored
  end.

(** A request body for the first seed asset, as a client sends it. *)
Definition seed1_json : string :=
  dq "{'ID':'assetcar1','Model':'Honda Accord','Color':'Silver','Owner':'Ajith','Year':2023,'VIN':'AB12CD345671','EngineType':'4-cylinder Diesel','Mileage':10}".

(** Two values are the same record when they differ at most in the order in
    which the properties of their objects, at any depth, were inserted. *)
#[local] Unset Elimination Schemes.
Inductive same_record : jsval → jsval → Prop :=
  | same_value v : same_record v v
  | same_array l1 l2 :
      Forall2 same_record l1 l2 → same_record (JArr l1) (JArr l2)
  | same_object fs1 fs fs2 :
      NoDup (map fst fs1) →
      fs1 ≡ₚ fs →
      Forall2 (fun kv1 kv2 => fst kv1 = fst kv2
                              ∧ same_record (snd kv1) (snd kv2)) fs fs2 →
      same_record (JObj fs1) (JObj fs2).
#[local] Set Elimination Schemes.

(** A transaction function keeps the ledger invariant, and what it returns
    satisfies [Q]. *)
Definition tx_inv {A} (Q : A → Prop) (m : tx A) : Prop :=
  ∀ ws, ws_ok ws →
    ws_ok (snd (m ws)) ∧ ∀ x, fst (m ws) = inr x → Q x.

(** The transactions a client can submit. *)
Inductive transaction : Type :=
  | TInit
  | TCreate (json : string)
  | TRead (id : string)
  | TUpdate (json : string)
  | TDelete (id : string)
  | TExists (id : string)
  | TTransfer (id newOwner : string)
  | TGetAll.

(** The world state a transaction leaves. *)
Definition commit (t : transaction) (ws : gmap string string)
  : gmap string string :=
  match t with
  | TInit => snd (InitGarageCarLedger ws)
  | TCreate json => snd (CreateGarageCarAsset json ws)
  | TRead id => snd (ReadGarageCarAsset id ws)
  | TUpdate json => snd (UpdateGarageCarAsset json ws)
  | TDelete id => snd (DeleteGarageCarAsset id ws)
  | TExists id => snd (AssetGarageCarExists (JStr id) ws)
  | TTransfer id newOwner => snd (TransferGarageCarAsset id newOwner ws)
  | TGetAll => snd (GetAllGarageCars ws)
  end.

(** The states of a ledger that only this contract writes. *)
Inductive reachable : gmap string string → Prop :=
  | reachable_empty : reachable ∅
  | reachable_commit t ws : reachable ws → reachable (commit t ws).

(** A transaction function that writes nothing, whatever it returns. *)
Definition read_only {A} (m : tx A) : Prop := ∀ ws, snd (m ws) = ws.

(** A transaction function that has written nothing when it throws. *)
Definition atomic {A} (m : tx A) : Prop :=
  ∀ ws e, fst (m ws) = inl e → snd (m ws) = ws.

End contract.

(** ** Notions used in the proofs *)

Definition no_digit (rest : string) : Prop :=
  match rest with
  | "" => True
  | String c _ => digit_of c = None
  end.

(** What may follow a value in a JSON text: the end, or a separator. *)
Definition delimited (rest : string) : Prop :=
  match rest with
  | "" => True
  | String c _ => c = ","%char ∨ c = "]"%char ∨ c = "}"%char
  end.

(** A serialised value starts with a character that is neither white space
    nor a closing bracket. *)
Definition starts_value (s : string) : Prop :=
  match s with
  | "" => False
  | String c _ =>
      is_ws c = false ∧ c ≠ "]"%char ∧ c ≠ "}"%char
  end.

(** The statement of the round trip, proved by induction on the value. *)
Definition reads_back (order : list string → list string) (v : jsval) : Prop :=
  wf v = true →
  ∀ s rest fuel,
    serialize order v = Some s → delimited rest → String.length s < fuel →
    parse_value fuel (s +:+ rest) = Some (decoded order v, rest).

(** An array element as it is written, and as it is read back. *)
Definition item_text (order : list string → list string) (x : jsval) : string :=
  default "null" (serialize order x).
Definition item_value (order : list string → list string) (x : jsval) : jsval :=
  match x with JUndefined => JNull | _ => decoded order x end.

(** The properties of an object as they are written, and as they are read
    back. *)
Definition member_texts (order : list string → list string)
    (fs : list (string * jsval)) : list (string * option string) :=
  map (fun kv => (fst kv, serialize order (snd kv))) fs.
Definition member_values (order : list string → list string)
    (fs : list (string * jsval)) : list (string * jsval) :=
  map (fun kv => (fst kv, decoded order (snd kv))) fs.

(** A parse that succeeds with some fuel consumes a character for every
    nested call: it succeeds, with the same result, whenever the fuel is at
    least the number of characters consumed. *)
Definition fuel_enough {R} (parse : nat → string → option (R * string))
    (fuel : nat) : Prop :=
  ∀ s v r, parse fuel s = Some (v, r) →
    (String.length r < String.length s)%nat
    ∧ ∀ fuel', (String.length s - String.length r ≤ fuel')%nat →
               parse fuel' s = Some (v, r).

(** * Proofs *)

Section proofs.
Context `{stub : Stub}.

(** ** Strings *)

Lemma str_app_cons c s r : String c s +:+ r = String c (s +:+ r).
Proof. reflexivity. Qed.

Lemma str_app_nil_l s : "" +:+ s = s.
Proof. reflexivity. Qed.

Lemma str_app_nil_r s : s +:+ "" = s.
Proof. induction s as [|c s IH]; [done|]. by rewrite str_app_cons, IH. Qed.

Lemma str_app_assoc s1 s2 s3 : (s1 +:+ s2) +:+ s3 = s1 +:+ (s2 +:+ s3).
Proof. induction s1 as [|c s1 IH]; [done|]. by rewrite !str_app_cons, IH. Qed.

Lemma str_length_app s1 s2 :
  String.length (s1 +:+ s2) = String.length s1 + String.length s2.
Proof. induction s1 as [|c s1 IH]; [done|]. rewrite str_app_cons. simpl. lia. Qed.

Lemma str_length_pos s : (0 <? String.length s)%nat = true ↔ s ≠ "".
Proof. destruct s; simpl; split; intros; done. Qed.


(** ** The stub and the monad *)

Ltac tx_unfold :=
  cbv beta iota delta [bind ret throw JSON_parse_tx Buffer_from read_prop
    write_prop AssetGarageCarExists getState putState deleteState read_key
    write_key delete_key fault key_of] in *.

Lemma ws_ok_empty : ws_ok ∅.
Proof. apply map_Forall_empty. Qed.

Lemma ws_ok_insert k v ws : v ≠ "" → ws_ok ws → ws_ok (<[k := v]> ws).
Proof. intros Hv Hok. by apply map_Forall_insert_2. Qed.

Lemma ws_ok_lookup ws k v : ws_ok ws → ws !! k = Some v → v ≠ "".
Proof. intros Hok Hk. exact (Hok k v Hk). Qed.

Lemma exists_present ws id v :
  ws_ok ws → ws !! id = Some v →
  AssetGarageCarExists (JStr id) ws = (inr true, ws).
Proof.
  intros Hok Hk. tx_unfold. rewrite Hk. simpl.
  by rewrite (proj2 (str_length_pos v) (ws_ok_lookup _ _ _ Hok Hk)).
Qed.

Lemma exists_absent ws id :
  ws !! id = None → AssetGarageCarExists (JStr id) ws = (inr false, ws).
Proof. intros Hk. tx_unfold. by rewrite Hk. Qed.

Lemma get_prop_str parsed k s :
  get_prop parsed k = JStr s → ∃ fs, parsed = JObj fs.
Proof. destruct parsed; simpl; try discriminate. eauto. Qed.

Lemma Encode_obj_Some fs : is_Some (Encode (JObj fs)).
Proof. unfold Encode. simpl. eauto. Qed.

(** The encoding of an object is never empty: it starts with a brace. *)
Lemma Encode_asset_of parsed :
  ∃ body, Encode (asset_of parsed) = Some (String "{" body).
Proof. eexists. reflexivity. Qed.

(** ** Create *)

Lemma Create_step json parsed id ws :
  JSON_parse json = Some parsed → get_prop parsed "ID" = JStr id →
  CreateGarageCarAsset json ws =
    match AssetGarageCarExists (JStr id) ws with
    | (inr true, ws') => (inl (AlreadyExists id), ws')
    | (inr false, ws') =>
        match Encode (asset_of parsed) with
        | Some value => (inr tt, <[id := value]> ws')
        | None => (inl TypeError, ws')
        end
    | (inl e, ws') => (inl e, ws')
    end.
Proof.
  intros Hp Hid. destruct (get_prop_str _ _ _ Hid) as [fs ->].
  unfold CreateGarageCarAsset, JSON_parse_tx, bind at 1 2. rewrite Hp.
  unfold ret at 1, read_prop, ret at 1, bind at 1. rewrite Hid.
  destruct (AssetGarageCarExists (JStr id) ws) as [[e|[]] ws'];
    [reflexivity|reflexivity|].
  destruct (Encode_asset_of (JObj fs)) as [body Hv]. rewrite Hv.
  unfold asset_of, Encode in Hv. rewrite Hid in Hv.
  unfold bind. by rewrite Hv.
Qed.

(** ** Update, Delete, Transfer on a key that is absent *)

Lemma Update_step json parsed id ws :
  JSON_parse json = Some parsed → get_prop parsed "ID" = JStr id →
  UpdateGarageCarAsset json ws =
    match AssetGarageCarExists (JStr id) ws with
    | (inr false, ws') => (inl (NotFound id), ws')
    | (inr true, ws') =>
        match Encode (asset_of parsed) with
        | Some value => (inr tt, <[id := value]> ws')
        | None => (inl TypeError, ws')
        end
    | (inl e, ws') => (inl e, ws')
    end.
Proof.
  intros Hp Hid. destruct (get_prop_str _ _ _ Hid) as [fs ->].
  unfold UpdateGarageCarAsset, JSON_parse_tx, bind at 1 2. rewrite Hp.
  unfold ret at 1, read_prop, ret at 1, bind at 1. rewrite Hid.
  destruct (AssetGarageCarExists (JStr id) ws) as [[e|[]] ws'];
    [reflexivity| |reflexivity].
  simpl negb. cbv iota.
  destruct (Encode_asset_of (JObj fs)) as [body Hv]. rewrite Hv.
  unfold asset_of, Encode in Hv. rewrite Hid in Hv.
  unfold bind. by rewrite Hv.
Qed.

Lemma Read_absent id ws :
  ws !! id = None → ReadGarageCarAsset id ws = (inl (NotFound id), ws).
Proof. intros Hk. unfold ReadGarageCarAsset. tx_unfold. by rewrite Hk. Qed.

Lemma Read_present id s ws :
  ws_ok ws → ws !! id = Some s → ReadGarageCarAsset id ws = (inr s, ws).
Proof.
  intros Hok Hk. unfold ReadGarageCarAsset. tx_unfold. rewrite Hk. simpl.
  destruct s; [|done]. by destruct (ws_ok_lookup _ _ _ Hok Hk).
Qed.

(** ** Read *)

(** ** ListAll *)

Lemma drain_spec iterator allResults :
  drain iterator allResults
  = (allResults ++ map (fun result => decode_or_raw (snd result)) iterator)%list.
Proof.
  revert allResults. induction iterator as [|result iterator IH]; intros acc.
  - by rewrite app_nil_r.
  - simpl. rewrite IH. by rewrite <- app_assoc.
Qed.

Lemma filter_all_range l : List.filter (in_range "" "") l = l.
Proof.
  induction l as [|kv l IH]; [done|]. simpl.
  replace (in_range "" "" kv) with true; [by rewrite IH|].
  unfold in_range. by destruct (fst kv).
Qed.

Global Instance key_le_total : Total key_le.
Proof. intros x y. unfold key_le. apply (total String.le). Qed.

(** ** The canonical encoding and the order of insertion *)

Lemma map_fmap {A B} (f : A → B) (l : list A) : map f l = f <$> l.
Proof. reflexivity. Qed.

Lemma assoc_Some_elem {A} k (v : A) l : assoc k l = Some v → (k, v) ∈ l.
Proof.
  induction l as [|[k' v'] l IH]; simpl; [done|].
  case_decide as Hk.
  - intros [= ->]. subst. left.
  - intros ?. right. auto.
Qed.

Lemma assoc_None_keys {A} k (l : list (string * A)) :
  assoc k l = None ↔ k ∉ map fst l.
Proof.
  induction l as [|[k' v'] l IH]; simpl.
  - split; [intros _; apply not_elem_of_nil|done].
  - rewrite not_elem_of_cons. case_decide as Hk.
    + split; [done|]. intros [? _]. done.
    + rewrite IH. split; [done|]. by intros [_ ?].
Qed.

Lemma elem_assoc_Some {A} k (v : A) l :
  NoDup (map fst l) → (k, v) ∈ l → assoc k l = Some v.
Proof.
  induction l as [|[k' v'] l IH]; simpl; intros Hnd Hin.
  - by apply elem_of_nil in Hin.
  - apply NoDup_cons in Hnd as [Hk' Hnd].
    apply elem_of_cons in Hin as [[= -> ->]|Hin].
    + by rewrite decide_True.
    + rewrite decide_False; [by apply IH|].
      intros ->. apply Hk'. rewrite map_fmap. apply list_elem_of_fmap.
      by exists (k', v).
Qed.

Lemma assoc_Permutation {A} k (l1 l2 : list (string * A)) :
  NoDup (map fst l1) → l1 ≡ₚ l2 → assoc k l1 = assoc k l2.
Proof.
  intros Hnd Hp.
  assert (NoDup (map fst l2)) as Hnd2.
  { by rewrite map_fmap, <- Hp, <- map_fmap. }
  destruct (assoc k l1) as [v|] eqn:H1.
  - symmetry. apply elem_assoc_Some; [done|].
    rewrite <- Hp. by apply assoc_Some_elem.
  - symmetry. apply assoc_None_keys. apply assoc_None_keys in H1.
    by rewrite map_fmap, <- Hp, <- map_fmap.
Qed.

Lemma sort_keys_Permutation ks1 ks2 :
  ks1 ≡ₚ ks2 → sort_keys ks1 = sort_keys ks2.
Proof.
  intros Hp. unfold sort_keys.
  apply (Sorted_unique String.le); try apply (Sorted_merge_sort String.le).
  by rewrite !merge_sort_Permutation.
Qed.

Lemma omap_ext_in {A B} (f g : A → option B) (l : list A) :
  (∀ x, x ∈ l → f x = g x) → omap f l = omap g l.
Proof.
  induction l as [|x l IH]; intros H; [done|]. csimpl.
  rewrite (H x) by left. rewrite IH; [done|]. intros y Hy. apply H. by right.
Qed.

Lemma sortKeysRecursive_Permutation fields1 fields2 :
  NoDup (map fst fields1) → fields1 ≡ₚ fields2 →
  sortKeysRecursive (JObj fields1) = sortKeysRecursive (JObj fields2).
Proof.
  intros Hnd Hp. simpl. f_equal.
  rewrite (sort_keys_Permutation (map fst fields1) (map fst fields2))
    by (by apply Permutation_map).
  apply omap_ext_in. intros k _. unfold sorted_field.
  rewrite (assoc_Permutation k
    (map (fun kv => (fst kv, sortKeysRecursive (snd kv))) fields1)
    (map (fun kv => (fst kv, sortKeysRecursive (snd kv))) fields2)); [done| |].
  - by rewrite map_map.
  - by apply Permutation_map.
Qed.

(** ** Reading back what the serialiser writes *)

Lemma parse_chars_quote_char c t :
  parse_chars (quote_char c +:+ t)
  = match parse_chars t with
    | Some (x, r) => Some (String c x, r)
    | None => None
    end.
Proof.
  destruct c as [[] [] [] [] [] [] [] []]; reflexivity.
Qed.

Lemma parse_chars_quote_chars s rest :
  parse_chars (quote_chars s +:+ String dquote rest) = Some (s, rest).
Proof.
  induction s as [|c s IH]; [done|]. simpl quote_chars.
  by rewrite str_app_assoc, parse_chars_quote_char, IH.
Qed.

Lemma read_digits_string_of_uint u rest :
  no_digit rest →
  read_digits (NilEmpty.string_of_uint u +:+ rest) = (u, rest).
Proof.
  intros Hrest. induction u; simpl NilEmpty.string_of_uint;
    rewrite ?str_app_cons; simpl read_digits; rewrite ?IHu; try done.
  destruct rest as [|c r]; [done|]. simpl in *. by rewrite Hrest.
Qed.

Lemma to_uint_unorm n : Decimal.unorm (N.to_uint n) = N.to_uint n.
Proof. by rewrite <- (DecimalN.Unsigned.to_of (N.to_uint n)), DecimalN.Unsigned.of_to. Qed.

Lemma delimited_no_digit rest : delimited rest → no_digit rest.
Proof. destruct rest as [|c r]; [done|]. simpl. by intros [->|[->| ->]]. Qed.

Lemma parse_nat_print_N n rest :
  delimited rest → parse_nat (print_N n +:+ rest) = Some (n, rest).
Proof.
  intros Hrest. unfold parse_nat, print_N.
  rewrite read_digits_string_of_uint by by apply delimited_no_digit.
  pose proof (to_uint_unorm n) as Hn.
  pose proof (DecimalN.Unsigned.of_to n) as Hof.
  assert (match rest with
          | String "."%char _ | String "e"%char _ | String "E"%char _ => None
          | _ => Some (N.of_uint (N.to_uint n), rest)
          end = Some (n, rest)) as Hr.
  { rewrite Hof. destruct rest as [|c r]; [done|].
    by destruct Hrest as [->|[->| ->]]. }
  destruct (N.to_uint n) as [|u|u|u|u|u|u|u|u|u|u]; try exact Hr.
  - by destruct (unorm_nonnil Decimal.Nil).
  - rewrite unorm_D0 in Hn. unfold Decimal.unorm in Hn.
    destruct (Decimal.nzhead u) eqn:Hz in Hn; try discriminate Hn;
      try (by destruct (nzhead_nonzero _ _ Hz)).
    injection Hn as <-. exact Hr.
Qed.

Lemma print_N_head n :
  ∃ c r, print_N n = String c r ∧ digit_of c ≠ None.
Proof.
  unfold print_N. pose proof (to_uint_unorm n) as Hn.
  destruct (N.to_uint n) as [|u|u|u|u|u|u|u|u|u|u];
    try (eexists _, _; split; [reflexivity|done]).
  by destruct (unorm_nonnil Decimal.Nil).
Qed.

Lemma parse_number_digit c r :
  digit_of c ≠ None →
  parse_number (String c r)
  = match parse_nat (String c r) with
    | Some (n, r') => Some (JNum (Z.of_N n), r')
    | None => None
    end.
Proof.
  destruct c as [[] [] [] [] [] [] [] []]; intros H;
    try (by destruct H); reflexivity.
Qed.

Lemma parse_number_print_N n rest :
  delimited rest →
  parse_number (print_N n +:+ rest) = Some (JNum (Z.of_N n), rest).
Proof.
  intros Hrest. pose proof (parse_nat_print_N n rest Hrest) as Hp.
  destruct (print_N_head n) as (c & r & Heq & Hc). rewrite Heq in *.
  rewrite str_app_cons in *. by rewrite parse_number_digit, Hp.
Qed.

Lemma parse_number_print_Z z rest :
  delimited rest → parse_number (print_Z z +:+ rest) = Some (JNum z, rest).
Proof.
  intros Hrest. destruct z as [|p|p]; unfold print_Z.
  - by rewrite parse_number_print_N.
  - by rewrite parse_number_print_N.
  - rewrite str_app_cons. simpl. by rewrite parse_nat_print_N.
Qed.

Lemma skip_ws_head c r : is_ws c = false → skip_ws (String c r) = String c r.
Proof. intros H. simpl. by rewrite H. Qed.

Lemma print_Z_head z :
  ∃ c r, print_Z z = String c r ∧ (c = "-"%char ∨ digit_of c ≠ None).
Proof.
  destruct z as [|p|p]; unfold print_Z.
  - destruct (print_N_head (Z.to_N 0)) as (c & r & -> & H). eauto.
  - destruct (print_N_head (Z.to_N (Z.pos p))) as (c & r & -> & H). eauto.
  - eauto.
Qed.

Lemma number_head_starts c r :
  c = "-"%char ∨ digit_of c ≠ None → starts_value (String c r).
Proof.
  destruct c as [[] [] [] [] [] [] [] []]; intros [H|H];
    try discriminate H; try (by destruct H); by vm_compute.
Qed.

Lemma parse_value_number fuel c r :
  c = "-"%char ∨ digit_of c ≠ None →
  parse_value (S fuel) (String c r) = parse_number (String c r).
Proof.
  destruct c as [[] [] [] [] [] [] [] []]; intros [H|H];
    try discriminate H; try (by destruct H); reflexivity.
Qed.

Lemma serialize_starts order v s :
  serialize order v = Some s → starts_value s.
Proof.
  destruct v as [| |[]|z|t|l|fs]; simpl; intros [= <-]; try by vm_compute.
  destruct (print_Z_head z) as (c & r & -> & H). by apply number_head_starts.
Qed.

Lemma starts_value_app s rest : starts_value s → starts_value (s +:+ rest).
Proof. by destruct s. Qed.

Lemma serialize_undefined order v : serialize order v = None ↔ v = JUndefined.
Proof. destruct v as [| |[]| | | |]; simpl; split; intros; done. Qed.

Lemma decoded_undefined order v : decoded order v = JUndefined ↔ v = JUndefined.
Proof. destruct v; simpl; split; intros; done. Qed.

Lemma assoc_map {A B} (g : A → B) k (l : list (string * A)) :
  assoc k (map (fun kv => (fst kv, g (snd kv))) l) = g <$> assoc k l.
Proof.
  induction l as [|[k' v] l IH]; [done|]. simpl. by case_decide.
Qed.

Lemma obj_set_fresh k v fs :
  k ∉ map fst fs → obj_set k v fs = (fs ++ [(k, v)])%list.
Proof.
  induction fs as [|[k' v'] fs IH]; [done|]. simpl.
  rewrite not_elem_of_cons. intros [Hne Hk].
  rewrite decide_False by done. by rewrite IH.
Qed.

Lemma join_one sep x : join sep [x] = x.
Proof. reflexivity. Qed.

Lemma not_close_bracket {T} X (A : string → T) B :
  starts_value X →
  match skip_ws X with String "]"%char r' => A r' | _ => B end = B.
Proof.
  destruct X as [|c r]; [done|]. intros (Hws & H1 & H2).
  rewrite skip_ws_head by done.
  destruct c as [[] [] [] [] [] [] [] []]; try done.
Qed.

Lemma not_close_brace {T} X (A : string → T) B :
  starts_value X →
  match skip_ws X with String "}"%char r' => A r' | _ => B end = B.
Proof.
  destruct X as [|c r]; [done|]. intros (Hws & H1 & H2).
  rewrite skip_ws_head by done.
  destruct c as [[] [] [] [] [] [] [] []]; try done.
Qed.

Section roundtrip.
Variable order : list string → list string.
Hypothesis order_NoDup : ∀ ks, NoDup ks → NoDup (order ks).

Local Abbreviation item := (item_text order).
Local Abbreviation read_item := (item_value order).
Local Abbreviation sers := (member_texts order).
Local Abbreviation decs := (member_values order).

Lemma item_reads_back x rest fuel :
  (reads_back order) x → wf x = true → delimited rest →
  String.length (item x) < fuel →
  parse_value fuel (item x +:+ rest) = Some (read_item x, rest).
Proof.
  intros IH Hwf Hrest Hfuel. unfold item_text in *.
  destruct (serialize order x) as [s|] eqn:Hs.
  - simpl in *. rewrite (IH Hwf s rest fuel Hs Hrest Hfuel).
    destruct x; try done.
  - apply serialize_undefined in Hs as ->.
    destruct fuel as [|fuel]; [simpl in Hfuel; lia|]. done.
Qed.

Lemma item_starts x : starts_value (item x).
Proof.
  unfold item_text. destruct (serialize order x) as [s|] eqn:Hs; [|by vm_compute].
  by eapply serialize_starts.
Qed.

Lemma join_cons sep x y l :
  join sep (x :: y :: l) = x +:+ sep +:+ join sep (y :: l).
Proof. reflexivity. Qed.

Lemma join_starts l :
  l ≠ [] → Forall starts_value l → starts_value (join "," l).
Proof.
  destruct l as [|x [|y l]]; [done| |]; intros _ Hl;
    apply Forall_cons in Hl as [Hx _]; [done|].
  rewrite join_cons. by apply starts_value_app.
Qed.

Lemma elements_read_back l :
  Forall (reads_back order) l → forallb wf l = true → l ≠ [] →
  ∀ acc rest fuel,
    String.length (join "," (map item l)) + 1 < fuel →
    parse_elements fuel acc (join "," (map item l) +:+ String "]" rest)
    = Some (JArr (acc ++ map read_item l), rest).
Proof.
  induction l as [|x l IHl]; [done|]. intros IH Hwf _ acc rest fuel Hfuel.
  apply Forall_cons in IH as [IHx IH].
  simpl in Hwf. apply andb_prop in Hwf as [Hwfx Hwf].
  destruct fuel as [|fuel]; [lia|].
  destruct l as [|y l].
  - simpl map in *. rewrite join_one in *. simpl parse_elements.
    rewrite (item_reads_back x (String "]" rest) fuel IHx Hwfx);
      [done|simpl; auto|lia].
  - simpl map in *. rewrite join_cons in *.
    rewrite !str_length_app in Hfuel.
    change (String.length ",") with 1 in Hfuel.
    rewrite !str_app_assoc, !str_app_cons, !str_app_nil_l.
    simpl parse_elements.
    rewrite (item_reads_back x _ fuel IHx Hwfx); [|simpl; auto|lia].
    simpl skip_ws. cbv iota beta.
    rewrite (IHl IH Hwf); [|done|simpl map; lia].
    by rewrite <- List.app_assoc.
Qed.

Lemma parse_members_key fuel acc k R :
  parse_members (S fuel) acc (quote k +:+ R)
  = match skip_ws R with
    | String ":"%char r2 =>
        match parse_value fuel r2 with
        | None => None
        | Some (v, r3) =>
            match skip_ws r3 with
            | String ","%char r4 => parse_members fuel (obj_set k v acc) r4
            | String "}"%char r4 => Some (JObj (obj_set k v acc), r4)
            | _ => None
            end
        end
    | _ => None
    end.
Proof.
  unfold quote. rewrite str_app_cons, str_app_assoc, str_app_cons, str_app_nil_l.
  simpl. by rewrite parse_chars_quote_chars.
Qed.

Lemma member_spec fs k :
  member (sers fs) k
  = match assoc k fs with
    | Some v =>
        match serialize order v with
        | Some s => Some (quote k +:+ ":" +:+ s)
        | None => None
        end
    | None => None
    end.
Proof. unfold member, member_texts. rewrite assoc_map. by destruct (assoc k fs). Qed.

Lemma kept_spec fs k :
  kept (decs fs) k
  = match assoc k fs with
    | Some v =>
        match serialize order v with
        | Some _ => Some (k, decoded order v)
        | None => None
        end
    | None => None
    end.
Proof.
  unfold kept, member_values. rewrite assoc_map. destruct (assoc k fs) as [v|]; [|done].
  simpl. by destruct v as [| |[]| | | |].
Qed.

Lemma kept_nil fs ks :
  omap (member (sers fs)) ks = [] → omap (kept (decs fs)) ks = [].
Proof.
  induction ks as [|k ks IH]; [done|]. csimpl.
  rewrite member_spec, kept_spec.
  destruct (assoc k fs) as [v|]; [|done].
  by destruct (serialize order v).
Qed.

Lemma members_read_back fs :
  Forall (fun kv => (reads_back order) (snd kv)) fs →
  forallb (fun kv => wf (snd kv)) fs = true →
  ∀ ks acc rest fuel,
    NoDup ks → (∀ k, k ∈ ks → k ∉ map fst acc) →
    omap (member (sers fs)) ks ≠ [] →
    String.length (join "," (omap (member (sers fs)) ks)) + 1 < fuel →
    parse_members fuel acc
      (join "," (omap (member (sers fs)) ks) +:+ String "}" rest)
    = Some (JObj (acc ++ omap (kept (decs fs)) ks), rest).
Proof.
  intros IH Hwf ks. induction ks as [|k ks IHks];
    intros acc rest fuel Hnd Hacc; [done|].
  apply NoDup_cons in Hnd as [Hk Hnd].
  csimpl. rewrite member_spec, kept_spec.
  assert (∀ k', k' ∈ ks → k' ∉ map fst acc) as Hacc'.
  { intros k' Hk'. apply Hacc. by right. }
  destruct (assoc k fs) as [v|] eqn:Hv; [|by apply IHks].
  destruct (serialize order v) as [sv|] eqn:Hsv; [|by apply IHks].
  apply assoc_Some_elem in Hv.
  assert ((reads_back order) v) as IHv.
  { by apply (proj1 (Forall_forall _ _) IH (k, v)). }
  assert (wf v = true) as Hwfv.
  { apply (proj1 (forallb_forall _ _) Hwf (k, v)). by apply list_elem_of_In. }
  intros _ Hfuel. destruct fuel as [|fuel]; [lia|].
  assert (k ∉ map fst acc) as Hfresh by (apply Hacc; left).
  destruct (omap (member (sers fs)) ks) as [|m items] eqn:Hitems.
  - rewrite join_one in *. rewrite !str_length_app in Hfuel.
    rewrite !str_app_assoc, parse_members_key.
    rewrite !str_app_cons, !str_app_nil_l. simpl skip_ws. cbv iota beta.
    rewrite (IHv Hwfv sv _ fuel Hsv); [|simpl; auto|lia].
    simpl skip_ws. cbv iota beta. rewrite obj_set_fresh by done.
    by rewrite (kept_nil _ _ Hitems).
  - rewrite join_cons in *. rewrite !str_length_app in Hfuel.
    change (String.length ",") with 1 in Hfuel.
    rewrite !str_app_assoc, parse_members_key.
    rewrite !str_app_cons, !str_app_nil_l. simpl skip_ws. cbv iota beta.
    rewrite (IHv Hwfv sv _ fuel Hsv); [|simpl; auto|lia].
    simpl skip_ws. cbv iota beta.
    rewrite obj_set_fresh by done.
    rewrite (IHks (acc ++ [(k, decoded order v)])%list rest fuel Hnd);
      [by rewrite <- List.app_assoc| |done|lia].
    intros k' Hk'. rewrite map_app. simpl. rewrite elem_of_app.
    intros [Hin|Hin%list_elem_of_singleton]; [by apply (Hacc' k')|].
    by subst.
Qed.

Lemma reads_back_all v : (reads_back order) v.
Proof.
  induction v as [| |b|z|t|l IH|fs IH] using jsval_ind;
    intros Hwf s rest fuel Hs Hrest Hfuel;
    (destruct fuel as [|fuel]; [lia|]); simpl in Hs; simplify_eq.
  - done.
  - by destruct b; simplify_eq.
  - destruct (print_Z_head z) as (c & r & Heq & Hc).
    rewrite Heq, str_app_cons, parse_value_number, <- str_app_cons, <- Heq
      by done.
    by apply parse_number_print_Z.
  - unfold quote. rewrite !str_app_cons, str_app_assoc, str_app_cons, str_app_nil_l.
    simpl. by rewrite parse_chars_quote_chars.
  - rewrite !str_app_cons, !str_app_nil_l, str_app_assoc, str_app_cons, str_app_nil_l.
    simpl in Hwf. change (map _ l) with (map item l) in *.
    destruct l as [|x l]; [done|].
    rewrite !str_length_app in Hfuel.
    change (String.length "[") with 1 in Hfuel.
    change (String.length "]") with 1 in Hfuel.
    assert (starts_value
              (join "," (map item (x :: l)) +:+ String "]" rest)) as Hst.
    { apply starts_value_app, join_starts; [done|].
      apply Forall_forall. intros m [y [<- _]]%list_elem_of_In%in_map_iff.
      apply item_starts. }
    cbn [parse_value]. rewrite (skip_ws_head "["), (not_close_bracket _ _ _ Hst) by done.
    cbn [Ascii.eqb Bool.eqb dquote].
    by rewrite (elements_read_back (x :: l) IH Hwf) by (done || lia).
  - rewrite !str_app_cons, !str_app_nil_l, str_app_assoc, str_app_cons, str_app_nil_l.
    simpl in Hwf. apply andb_prop in Hwf as [Hnd%bool_decide_eq_true Hwf].
    change (map (fun kv => (fst kv, serialize order (snd kv))) fs)
      with (sers fs) in *.
    change (map (fun kv => (fst kv, decoded order (snd kv))) fs) with (decs fs).
    destruct (omap (member (sers fs)) (order (map fst fs))) as [|m items] eqn:Hi.
    + change (decoded order (JObj fs))
        with (JObj (omap (kept (decs fs)) (order (map fst fs)))).
      by rewrite (kept_nil _ _ Hi).
    + rewrite !str_length_app in Hfuel.
      change (String.length "{") with 1 in Hfuel.
      change (String.length "}") with 1 in Hfuel.
      assert (starts_value (join "," (m :: items) +:+ String "}" rest)) as Hst.
      { apply starts_value_app, join_starts; [done|].
        apply Forall_forall. intros m' Hm'. rewrite <- Hi in Hm'.
        apply list_elem_of_omap in Hm' as (k & _ & Hk).
        rewrite member_spec in Hk.
        destruct (assoc k fs) as [v|]; [|done].
        destruct (serialize order v); [|done].
        injection Hk as <-. by vm_compute. }
      cbn [parse_value]. rewrite (skip_ws_head "{"), (not_close_brace _ _ _ Hst) by done.
      cbn [Ascii.eqb Bool.eqb dquote].
      rewrite <- Hi.
      change (decoded order (JObj fs))
        with (JObj (omap (kept (decs fs)) (order (map fst fs)))).
      rewrite (members_read_back fs IH Hwf (order (map fst fs)) []);
        [done|by apply order_NoDup| | |].
      * intros k _. apply not_elem_of_nil.
      * by rewrite Hi.
      * rewrite Hi. lia.
Qed.

(** [JSON.parse] reads back every text that [serialize] writes. *)
Lemma JSON_parse_serialize v s :
  wf v = true → serialize order v = Some s →
  JSON_parse s = Some (decoded order v).
Proof.
  intros Hwf Hs. unfold JSON_parse.
  rewrite <- (str_app_nil_r s) at 2.
  by rewrite (reads_back_all v Hwf s "" (S (String.length s)) Hs I) by lia.
Qed.
End roundtrip.

Lemma sort_keys_NoDup ks : NoDup ks → NoDup (sort_keys ks).
Proof. unfold sort_keys. by rewrite merge_sort_Permutation. Qed.

Definition JSON_parse_stringify :=
  JSON_parse_serialize sort_keys sort_keys_NoDup.

(** ** The fuel of the parser is enough *)

Lemma skip_ws_length s : (String.length (skip_ws s) ≤ String.length s)%nat.
Proof.
  induction s as [|c r IH]; simpl; [done|]. destruct (is_ws c); simpl; lia.
Qed.

Lemma cons_text_Some x p t r :
  cons_text x p = Some (t, r) → ∃ t', p = Some (t', r).
Proof. destruct p as [[t' r']|]; simpl; intros; simplify_eq; eauto. Qed.

Lemma parse_chars_length s :
  ∀ t r, parse_chars s = Some (t, r) → String.length r < String.length s.
Proof.
  remember (String.length s) as n eqn:Hn. revert s Hn.
  induction n as [n IH] using lt_wf_ind. intros s Hn t r.
  assert (∀ s' x t' r', String.length s' < n →
            cons_text x (parse_chars s') = Some (t', r') →
            String.length r' < String.length s') as IH'.
  { intros s' x t' r' Hlt [t'' H]%cons_text_Some.
    by apply (IH (String.length s') Hlt s' eq_refl t''). }
  clear IH. destruct s as [|c s1]; [done|]. simpl in Hn. subst n.
  simpl. destruct (Ascii.eqb c dquote).
  { intros [= <- <-]. lia. }
  destruct (Ascii.eqb c "\").
  - destruct s1 as [|e r1]; [done|]. destruct (Ascii.eqb e "u").
    + destruct r1 as [|h1 [|h2 [|h3 [|h4 r2]]]]; try done.
      destruct (hex4 h1 h2 h3 h4) as [hi|]; [|done].
      assert (∀ x, cons_text x (parse_chars r2) = Some (t, r) →
                String.length r
                < String.length
                    (String c (String e (String h1 (String h2 (String h3
                       (String h4 r2)))))))
        as Hsingle.
      { intros x H. apply IH' in H; simpl; lia. }
      destruct (is_high_surrogate hi); [|apply Hsingle].
      destruct r2 as [|b [|u [|l1 [|l2 [|l3 [|l4 r3]]]]]]; try apply Hsingle.
      destruct (hex4 l1 l2 l3 l4) as [lo|]; [|apply Hsingle].
      destruct (_ && _ && _)%bool; [|apply Hsingle].
      intros H. apply IH' in H; simpl in *; lia.
    + destruct (simple_escape e); [|done].
      intros H. apply IH' in H; simpl in *; lia.
  - destruct (N_of_ascii c <? 32)%N; [done|].
    intros H. apply IH' in H; simpl in *; lia.
Qed.

Lemma read_digits_length s :
  (String.length (snd (read_digits s)) ≤ String.length s)%nat
  ∧ (fst (read_digits s) ≠ Decimal.Nil →
     String.length (snd (read_digits s)) < String.length s).
Proof.
  induction s as [|c r [IH1 IH2]]; simpl; [done|].
  destruct (digit_of c) as [d|]; [|done].
  destruct (read_digits r) as [u r']. simpl in *. split; [lia|]. intros _. lia.
Qed.

Lemma parse_nat_length s n r :
  parse_nat s = Some (n, r) → String.length r < String.length s.
Proof.
  unfold parse_nat. pose proof (read_digits_length s) as [_ H].
  destruct (read_digits s) as [u r']. simpl in H.
  intros Hp. assert (r = r' ∧ u ≠ Decimal.Nil) as [-> Hu].
  { repeat case_match; simplify_eq; done. }
  by apply H.
Qed.

Lemma parse_number_length s v r :
  parse_number s = Some (v, r) → String.length r < String.length s.
Proof.
  unfold parse_number. intros H.
  assert ((∃ n, parse_nat s = Some (n, r))
          ∨ (∃ c s' n, s = String c s' ∧ parse_nat s' = Some (n, r)))
    as [[n Hn]|(c & s' & n & -> & Hn)].
  { repeat case_match; simplify_eq; eauto 8. }
  - by eapply parse_nat_length.
  - apply parse_nat_length in Hn. simpl. lia.
Qed.

Lemma skip_ws_cons s c r :
  skip_ws s = String c r → String.length r < String.length s.
Proof. intros H. pose proof (skip_ws_length s) as Hl. rewrite H in Hl. simpl in Hl. lia. Qed.

Lemma parse_enough fuel :
  fuel_enough parse_value fuel
  ∧ (∀ acc, fuel_enough (fun fuel => parse_members fuel acc) fuel)
  ∧ (∀ acc, fuel_enough (fun fuel => parse_elements fuel acc) fuel).
Proof.
  induction fuel as [|fuel (IHv & IHm & IHe)]; [done|]. split_and!.
  - intros s v r. simpl.
    destruct (skip_ws s) as [|c r0] eqn:Hs; [done|].
    pose proof (skip_ws_cons _ _ _ Hs) as Hlen.
    destruct (Ascii.eqb c dquote) eqn:Hq.
    { destruct (parse_chars r0) as [[t r']|] eqn:Hc; [|done].
      intros [= <- <-]. apply parse_chars_length in Hc as Hl.
      split; [lia|]. intros [|fuel'] Hf; [lia|]. simpl.
      by rewrite Hs, Hq, Hc. }
    intros H.
    assert (((String.length r < String.length s)%nat
             ∧ ∀ fuel', parse_value (S fuel') s = Some (v, r))
            ∨ (parse_members fuel [] r0 = Some (v, r)
               ∧ ∀ fuel', parse_members fuel' [] r0 = Some (v, r) →
                          parse_value (S fuel') s = Some (v, r))
            ∨ (parse_elements fuel [] r0 = Some (v, r)
               ∧ ∀ fuel', parse_elements fuel' [] r0 = Some (v, r) →
                          parse_value (S fuel') s = Some (v, r))) as Hcase.
    { repeat (case_match; simplify_eq);
        lazymatch goal with
        | H : parse_members _ _ _ = Some _ |- _ =>
            right; left; split; [exact H|]; intros fuel' H'
        | H : parse_elements _ _ _ = Some _ |- _ =>
            right; right; split; [exact H|]; intros fuel' H'
        | _ =>
            left; split;
            [simpl in *;
             repeat match goal with
                    | H : skip_ws _ = String _ _ |- _ =>
                        apply skip_ws_cons in H
                    | H : parse_nat _ = Some _ |- _ =>
                        apply parse_nat_length in H
                    end; simpl in *; lia
            |intros fuel']
        end;
        simpl; rewrite Hs, Hq; simpl;
        repeat match goal with
               | H : skip_ws _ = _ |- _ => rewrite H
               | H : parse_nat _ = _ |- _ => rewrite H
               end; done. }
    destruct Hcase as [[Hl Hd]|[[Hm Hd]|[He Hd]]].
    + split; [done|]. intros [|fuel'] Hf; [lia|]. apply Hd.
    + apply IHm in Hm as [Hl Hm].
      split; [lia|]. intros [|fuel'] Hf; [lia|]. apply Hd, Hm. lia.
    + apply IHe in He as [Hl He].
      split; [lia|]. intros [|fuel'] Hf; [lia|]. apply Hd, He. lia.
  - intros acc s v r. simpl.
    destruct (skip_ws s) as [|c r0] eqn:Hs; [done|].
    pose proof (skip_ws_cons _ _ _ Hs) as Hlen.
    destruct (Ascii.eqb c dquote) eqn:Hq; [|done].
    destruct (parse_chars r0) as [[k r1]|] eqn:Hc; [|done].
    apply parse_chars_length in Hc as Hl1.
    destruct (skip_ws r1) as [|c2 r2] eqn:Hs1; [done|].
    pose proof (skip_ws_cons _ _ _ Hs1) as Hl2.
    destruct c2 as [[] [] [] [] [] [] [] []]; try done.
    destruct (parse_value fuel r2) as [[x r3]|] eqn:Hv; [|done].
    apply IHv in Hv as [Hl3 Hv].
    destruct (skip_ws r3) as [|c4 r4] eqn:Hs3; [done|].
    pose proof (skip_ws_cons _ _ _ Hs3) as Hl4.
    destruct c4 as [[] [] [] [] [] [] [] []]; try done.
    + intros [= <- <-].
      split; [lia|]. intros [|fuel'] Hf; [lia|]. simpl.
      by rewrite Hs, Hq, Hc, Hs1, (Hv fuel'), Hs3 by lia.
    + intros Hm. apply IHm in Hm as [Hl5 Hm].
      split; [lia|]. intros [|fuel'] Hf; [lia|]. simpl.
      rewrite Hs, Hq, Hc, Hs1, (Hv fuel'), Hs3 by lia.
      apply Hm. lia.
  - intros acc s v r. simpl.
    destruct (parse_value fuel s) as [[x r1]|] eqn:Hv; [|done].
    apply IHv in Hv as [Hl1 Hv].
    destruct (skip_ws r1) as [|c2 r2] eqn:Hs1; [done|].
    pose proof (skip_ws_cons _ _ _ Hs1) as Hl2.
    destruct c2 as [[] [] [] [] [] [] [] []]; try done.
    + intros [= <- <-].
      split; [lia|]. intros [|fuel'] Hf; [lia|]. simpl.
      by rewrite (Hv fuel'), Hs1 by lia.
    + intros He. apply IHe in He as [Hl3 He].
      split; [lia|]. intros [|fuel'] Hf; [lia|]. simpl.
      rewrite (Hv fuel'), Hs1 by lia. apply He. lia.
Qed.

(** The fuel [JSON_parse] starts with is enough for every text: a parse that
    succeeds with any fuel succeeds with it. *)
Lemma parse_value_fuel fuel text v r :
  parse_value fuel text = Some (v, r) →
  parse_value (S (String.length text)) text = Some (v, r).
Proof.
  intros H. destruct (parse_enough fuel) as (Hv & _).
  apply Hv in H as [_ H]. apply H. lia.
Qed.

Lemma JSON_parse_None text :
  JSON_parse text = None →
  ∀ fuel v r, parse_value fuel text = Some (v, r) → skip_ws r ≠ "".
Proof.
  unfold JSON_parse. intros H fuel v r Hp Hr.
  by rewrite (parse_value_fuel _ _ _ _ Hp), Hr in H.
Qed.

(** ** Values out of [JSON.parse] are well formed *)

Lemma obj_set_keys k v fs :
  map fst (obj_set k v fs)
  = if decide (k ∈ map fst fs) then map fst fs else (map fst fs ++ [k])%list.
Proof.
  induction fs as [|[k' v'] fs IH]; [done|]. simpl.
  destruct (decide (k = k')) as [->|Hne].
  - rewrite decide_True; [done|]. apply list_elem_of_here.
  - simpl. rewrite IH. destruct (decide (k ∈ map fst fs)) as [Hin|Hin].
    + rewrite decide_True; [done|]. by apply list_elem_of_further.
    + rewrite decide_False; [done|]. by intros [?|?]%elem_of_cons.
Qed.

Lemma obj_set_values (P : jsval → Prop) k v fs :
  P v → Forall (fun kv => P (snd kv)) fs →
  Forall (fun kv => P (snd kv)) (obj_set k v fs).
Proof.
  intros Hv. induction 1 as [|[k' v'] fs Hx Hfs IH]; simpl.
  - by constructor.
  - case_decide; constructor; auto.
Qed.

Lemma wf_obj fs :
  wf (JObj fs) = true
  ↔ NoDup (map fst fs) ∧ Forall (fun kv => wf (snd kv) = true) fs.
Proof.
  simpl. rewrite andb_true_iff, bool_decide_eq_true, forallb_forall, Forall_forall.
  by setoid_rewrite list_elem_of_In.
Qed.

Lemma wf_arr l : wf (JArr l) = true ↔ Forall (fun x => wf x = true) l.
Proof.
  simpl. rewrite forallb_forall, Forall_forall.
  by setoid_rewrite list_elem_of_In.
Qed.

Lemma wf_obj_set k v fs :
  wf v = true → wf (JObj fs) = true → wf (JObj (obj_set k v fs)) = true.
Proof.
  rewrite !wf_obj. intros Hv [Hnd Hfs]. split.
  - rewrite obj_set_keys. case_decide as Hk; [done|].
    apply NoDup_app. split_and!; [done| |apply NoDup_singleton].
    intros x Hx ->%list_elem_of_singleton. done.
  - by apply (obj_set_values (fun x => wf x = true)).
Qed.

Lemma parse_number_wf s v r : parse_number s = Some (v, r) → wf v = true.
Proof.
  unfold parse_number. intros H.
  repeat case_match; simplify_eq; done.
Qed.

Lemma parse_wf fuel :
  (∀ s v r, parse_value fuel s = Some (v, r) → wf v = true)
  ∧ (∀ acc s v r, parse_members fuel acc s = Some (v, r) →
       wf (JObj acc) = true → wf v = true)
  ∧ (∀ acc s v r, parse_elements fuel acc s = Some (v, r) →
       wf (JArr acc) = true → wf v = true).
Proof.
  induction fuel as [|fuel (IHv & IHm & IHe)]; [done|]. split_and!.
  - intros s v r. simpl.
    destruct (skip_ws s) as [|c t]; [done|].
    destruct (Ascii.eqb c dquote).
    { destruct (parse_chars t) as [[x r']|]; intros; simplify_eq; done. }
    intros H.
    assert (parse_number (String c t) = Some (v, r)
            ∨ (∃ t', parse_members fuel [] t' = Some (v, r))
            ∨ (∃ t', parse_elements fuel [] t' = Some (v, r))
            ∨ wf v = true) as [Hn|[[t' Hm]|[[t' He]|Hw]]].
    { repeat case_match; simplify_eq; eauto 6. }
    + by eapply parse_number_wf.
    + by eapply IHm.
    + by eapply IHe.
    + done.
  - intros acc s v r. simpl.
    destruct (skip_ws s) as [|c t]; [done|].
    destruct (Ascii.eqb c dquote); [|done].
    destruct (parse_chars t) as [[k r1]|]; [|done].
    destruct (skip_ws r1) as [|c2 r2]; [done|].
    intros H Hacc.
    assert (∃ x r3, parse_value fuel r2 = Some (x, r3)
            ∧ ((∃ r4, parse_members fuel (obj_set k x acc) r4 = Some (v, r))
               ∨ v = JObj (obj_set k x acc))) as (x & r3 & Hx & Hr).
    { repeat case_match; simplify_eq; eauto 8. }
    apply IHv in Hx. destruct Hr as [[r4 Hr]| ->].
    + eapply IHm; [done|]. by apply wf_obj_set.
    + by apply wf_obj_set.
  - intros acc s v r. simpl.
    destruct (parse_value fuel s) as [[x r1]|] eqn:Hx; [|done].
    apply IHv in Hx. intros H Hacc.
    assert (wf (JArr (acc ++ [x])) = true) as Hacc'.
    { apply wf_arr. apply wf_arr in Hacc. apply Forall_app. split; [done|].
      by constructor. }
    repeat case_match; simplify_eq; eauto.
Qed.

Lemma JSON_parse_wf text v : JSON_parse text = Some v → wf v = true.
Proof.
  unfold JSON_parse.
  destruct (parse_value _ text) as [[x r]|] eqn:Hx; [|done].
  apply parse_wf in Hx. by destruct (skip_ws r); intros; simplify_eq.
Qed.

(** ** [sortKeysRecursive] keeps values well formed *)

Lemma omap_keys_sublist (g : string → option (string * jsval)) ks :
  (∀ k kv, g k = Some kv → fst kv = k) →
  sublist (map fst (omap g ks)) ks.
Proof.
  intros Hg. induction ks as [|k ks IH]; [done|]. csimpl.
  destruct (g k) as [kv|] eqn:Hk.
  - simpl. rewrite (Hg _ _ Hk). by constructor.
  - by constructor.
Qed.

Lemma insert_sorted_Permutation x l : insert_sorted x l ≡ₚ x :: l.
Proof.
  induction l as [|y l IH]; [done|]. simpl. case_decide; [done|].
  by rewrite IH, Permutation_swap.
Qed.

Lemma array_sort_Permutation l : array_sort l ≡ₚ l.
Proof.
  induction l as [|x l IH]; [done|]. simpl.
  by rewrite insert_sorted_Permutation, IH.
Qed.

Lemma sortKeysRecursive_wf v : wf v = true → wf (sortKeysRecursive v) = true.
Proof.
  induction v as [| |b|z|t|l IH|fs IH] using jsval_ind; try done.
  - rewrite wf_arr. intros Hl. simpl sortKeysRecursive. apply wf_arr.
    by rewrite array_sort_Permutation.
  - rewrite wf_obj. intros [Hnd Hfs]. simpl sortKeysRecursive.
    apply wf_obj. split.
    + apply (sublist_NoDup _ (sort_keys (map fst fs)));
        [by apply sort_keys_NoDup|].
      apply omap_keys_sublist. intros k kv. unfold sorted_field.
      destruct (assoc k _); intros; simplify_eq; done.
    + apply Forall_forall. intros [k v'] (k0 & _ & Hk)%list_elem_of_omap.
      unfold sorted_field in Hk. rewrite assoc_map in Hk.
      destruct (assoc k0 fs) as [x|] eqn:Hx; simplify_eq/=.
      apply assoc_Some_elem in Hx.
      apply (proj1 (Forall_forall _ _) IH (k, x) Hx).
      by apply (proj1 (Forall_forall _ _) Hfs (k, x)).
Qed.

Lemma Encode_parse v text :
  wf v = true → Encode v = Some text →
  JSON_parse text = Some (decoded sort_keys (sortKeysRecursive v)).
Proof.
  intros Hwf He. apply JSON_parse_stringify; [|done].
  by apply sortKeysRecursive_wf.
Qed.

Lemma assoc_omap_kept fs' k ks :
  assoc k (omap (kept fs') ks)
  = if decide (k ∈ ks) then snd <$> kept fs' k else None.
Proof.
  induction ks as [|k0 ks IH]; [done|]. csimpl.
  destruct (decide (k = k0)) as [->|Hne].
  - rewrite decide_True by apply list_elem_of_here.
    destruct (kept fs' k0) as [[k1 v1]|] eqn:Hk.
    + assert (k1 = k0) as ->.
      { unfold kept in Hk. repeat case_match; simplify_eq; done. }
      simpl. by rewrite decide_True.
    + rewrite IH. by case_decide.
  - assert (assoc k (match kept fs' k0 with
                     | Some y => y :: omap (kept fs') ks
                     | None => omap (kept fs') ks
                     end) = assoc k (omap (kept fs') ks)) as ->.
    { destruct (kept fs' k0) as [[k1 v1]|] eqn:Hk; [|done].
      assert (k1 = k0) as ->.
      { unfold kept in Hk. repeat case_match; simplify_eq; done. }
      simpl. by rewrite decide_False. }
    rewrite IH. destruct (decide (k ∈ ks)) as [Hin|Hin].
    + rewrite decide_True; [done|]. by apply list_elem_of_further.
    + rewrite decide_False; [done|]. by intros [?|?]%elem_of_cons.
Qed.

Lemma sortKeysRecursive_Cars a :
  sortKeysRecursive (js_of_Cars a) = Cars_canonical a.
Proof. reflexivity. Qed.

Lemma sortKeysRecursive_canonical a :
  sortKeysRecursive (Cars_canonical a) = Cars_canonical a.
Proof. reflexivity. Qed.

Lemma stringify_canonical a : stringify (Cars_canonical a) = Some (Cars_text a).
Proof. reflexivity. Qed.

Lemma Encode_Cars a : Encode (js_of_Cars a) = Some (Cars_text a).
Proof. reflexivity. Qed.

Lemma Encode_canonical a : Encode (Cars_canonical a) = Some (Cars_text a).
Proof. reflexivity. Qed.

Lemma wf_Cars a : wf (js_of_Cars a) = true.
Proof. reflexivity. Qed.

Lemma JSON_parse_Cars_text a : JSON_parse (Cars_text a) = Some (Cars_canonical a).
Proof. exact (Encode_parse (js_of_Cars a) (Cars_text a) (wf_Cars a) (Encode_Cars a)). Qed.

Lemma Cars_of_js_canonical a : Cars_of_js (Cars_canonical a) = Some a.
Proof. by destruct a. Qed.

Lemma as_string_Some v s : as_string v = Some s → v = JStr s.
Proof. destruct v; simpl; intros; simplify_eq; done. Qed.

Lemma as_number_Some v z : as_number v = Some z → v = JNum z.
Proof. destruct v; simpl; intros; simplify_eq; done. Qed.

Lemma Cars_of_js_asset parsed a :
  Cars_of_js parsed = Some a → asset_of parsed = js_of_Cars a.
Proof.
  unfold Cars_of_js, asset_of, js_of_Cars.
  destruct (as_string (get_prop parsed "ID")) as [i|] eqn:Hi; [|done].
  destruct (as_string (get_prop parsed "Model")) as [m|] eqn:Hm; [|done].
  destruct (as_string (get_prop parsed "Color")) as [c|] eqn:Hc; [|done].
  destruct (as_string (get_prop parsed "Owner")) as [o|] eqn:Ho; [|done].
  destruct (as_number (get_prop parsed "Year")) as [y|] eqn:Hy; [|done].
  destruct (as_string (get_prop parsed "VIN")) as [n|] eqn:Hn; [|done].
  destruct (as_string (get_prop parsed "EngineType")) as [e|] eqn:He; [|done].
  destruct (as_number (get_prop parsed "Mileage")) as [k|] eqn:Hk; [|done].
  intros [= <-]. simpl.
  by rewrite (as_string_Some _ _ Hi), (as_string_Some _ _ Hm),
    (as_string_Some _ _ Hc), (as_string_Some _ _ Ho), (as_number_Some _ _ Hy),
    (as_string_Some _ _ Hn), (as_string_Some _ _ He), (as_number_Some _ _ Hk).
Qed.

Lemma Cars_text_nonempty a : Cars_text a ≠ "".
Proof. done. Qed.

Lemma Read_stored id s ws :
  ws !! id = Some s → s ≠ "" → ReadGarageCarAsset id ws = (inr s, ws).
Proof.
  intros Hk Hs. unfold ReadGarageCarAsset. tx_unfold. rewrite Hk. simpl.
  by destruct s.
Qed.

Lemma sortKeysRecursive_obj fs :
  sortKeysRecursive (JObj fs)
  = JObj (omap (sorted_field
                  (map (fun kv => (fst kv, sortKeysRecursive (snd kv))) fs))
               (sort_keys (map fst fs))).
Proof. reflexivity. Qed.

Lemma decoded_obj order fs :
  decoded order (JObj fs)
  = JObj (omap (kept (member_values order fs)) (order (map fst fs))).
Proof. reflexivity. Qed.

Lemma sorted_eight (y1 y2 y3 y4 y5 y6 y7 y8 : jsval) :
  omap (sorted_field
          [("ID", y1); ("Model", y2); ("Color", y3); ("Owner", y4);
           ("Year", y5); ("VIN", y6); ("EngineType", y7); ("Mileage", y8)])
       (sort_keys Cars_keys)
  = [("Color", y3); ("EngineType", y7); ("ID", y1); ("Mileage", y8);
     ("Model", y2); ("Owner", y4); ("VIN", y6); ("Year", y5)].
Proof. by vm_compute. Qed.

Lemma kept_eight (z1 z2 z3 z4 z5 z6 z7 z8 : jsval) :
  omap (kept
          [("Color", z3); ("EngineType", z7); ("ID", z1); ("Mileage", z8);
           ("Model", z2); ("Owner", z4); ("VIN", z6); ("Year", z5)])
       (sort_keys ["Color"; "EngineType"; "ID"; "Mileage"; "Model"; "Owner";
                   "VIN"; "Year"])
  = omap keep
      [("Color", z3); ("EngineType", z7); ("ID", z1); ("Mileage", z8);
       ("Model", z2); ("Owner", z4); ("VIN", z6); ("Year", z5)].
Proof.
  replace (sort_keys ["Color"; "EngineType"; "ID"; "Mileage"; "Model"; "Owner";
                   "VIN"; "Year"]) with ["Color"; "EngineType"; "ID"; "Mileage"; "Model"; "Owner";
                   "VIN"; "Year"] by (by vm_compute).
  reflexivity.
Qed.

Lemma decoded_asset_of parsed :
  decoded sort_keys (sortKeysRecursive (asset_of parsed))
  = JObj (stored_record parsed).
Proof.
  unfold asset_of. rewrite sortKeysRecursive_obj.
  change (map fst _) with Cars_keys at 1.
  change (map (fun kv => (fst kv, sortKeysRecursive (snd kv))) _)
    with [("ID", sortKeysRecursive (get_prop parsed "ID"));
          ("Model", sortKeysRecursive (get_prop parsed "Model"));
          ("Color", sortKeysRecursive (get_prop parsed "Color"));
          ("Owner", sortKeysRecursive (get_prop parsed "Owner"));
          ("Year", sortKeysRecursive (get_prop parsed "Year"));
          ("VIN", sortKeysRecursive (get_prop parsed "VIN"));
          ("EngineType", sortKeysRecursive (get_prop parsed "EngineType"));
          ("Mileage", sortKeysRecursive (get_prop parsed "Mileage"))].
  rewrite sorted_eight, decoded_obj.
  change (map fst _)
    with ["Color"; "EngineType"; "ID"; "Mileage"; "Model"; "Owner"; "VIN";
          "Year"].
  change (member_values sort_keys _)
    with [("Color", stored_form (get_prop parsed "Color"));
          ("EngineType", stored_form (get_prop parsed "EngineType"));
          ("ID", stored_form (get_prop parsed "ID"));
          ("Mileage", stored_form (get_prop parsed "Mileage"));
          ("Model", stored_form (get_prop parsed "Model"));
          ("Owner", stored_form (get_prop parsed "Owner"));
          ("VIN", stored_form (get_prop parsed "VIN"));
          ("Year", stored_form (get_prop parsed "Year"))].
  rewrite kept_eight. unfold stored_record.
  by replace (sort_keys Cars_keys)
    with ["Color"; "EngineType"; "ID"; "Mileage"; "Model"; "Owner"; "VIN";
          "Year"] by (by vm_compute).
Qed.

Lemma get_prop_wf parsed k : wf parsed = true → wf (get_prop parsed k) = true.
Proof.
  destruct parsed as [| | | | | |fs]; try done.
  rewrite wf_obj. intros [_ Hfs]. simpl.
  destruct (assoc k fs) as [v|] eqn:Hv; [|done].
  apply assoc_Some_elem in Hv.
  by apply (proj1 (Forall_forall _ _) Hfs (k, v)).
Qed.

Lemma wf_asset_of parsed : wf parsed = true → wf (asset_of parsed) = true.
Proof.
  intros Hwf. apply wf_obj. split.
  { change (NoDup Cars_keys). apply (bool_decide_unpack _). by vm_compute. }
  unfold asset_of. repeat constructor; by apply get_prop_wf.
Qed.

Lemma stored_form_undefined x : stored_form x = JUndefined ↔ x = JUndefined.
Proof. destruct x; simpl; split; intros; done. Qed.

Lemma stored_record_keys parsed k :
  k ∈ map fst (stored_record parsed) → k ∈ Cars_keys.
Proof.
  intros Hk. apply list_elem_of_In, in_map_iff in Hk as ([k' v] & Heq & Hin).
  simpl in Heq. subst k'.
  apply list_elem_of_In, list_elem_of_omap in Hin as ([k0 v0] & Hin & Hk).
  apply list_elem_of_In, in_map_iff in Hin as (k1 & Heq & Hin).
  injection Heq as -> <-.
  assert (k = k0) as ->.
  { unfold keep in Hk. simpl in Hk.
    destruct (stored_form (get_prop parsed k0)); simplify_eq; done. }
  apply list_elem_of_In in Hin. unfold sort_keys in Hin.
  by rewrite merge_sort_Permutation in Hin.
Qed.

Lemma assoc_omap_keep (g : string → jsval) k ks :
  assoc k (omap keep (map (fun k => (k, g k)) ks))
  = if decide (k ∈ ks)
    then match g k with JUndefined => None | x => Some x end
    else None.
Proof.
  induction ks as [|k0 ks IH]; [done|]. csimpl. unfold keep at 1. simpl.
  destruct (decide (k = k0)) as [->|Hne].
  - rewrite decide_True by apply list_elem_of_here.
    destruct (g k0) eqn:Hg; simpl; rewrite ?decide_True by done; try done.
    rewrite IH. by case_decide; rewrite ?Hg.
  - assert (assoc k (match match g k0 with
                           | JUndefined => None
                           | _ => Some (k0, g k0)
                           end with
                     | Some y => y :: omap keep (map (fun k => (k, g k)) ks)
                     | None => omap keep (map (fun k => (k, g k)) ks)
                     end)
            = assoc k (omap keep (map (fun k => (k, g k)) ks))) as ->.
    { destruct (g k0); simpl; rewrite ?decide_False by done; done. }
    rewrite IH. destruct (decide (k ∈ ks)) as [Hin|Hin].
    + rewrite decide_True; [done|]. by apply list_elem_of_further.
    + rewrite decide_False; [done|]. by intros [?|?]%elem_of_cons.
Qed.

Lemma stored_record_lookup parsed k :
  assoc k (stored_record parsed)
  = if decide (k ∈ Cars_keys)
    then match get_prop parsed k with
         | JUndefined => None
         | x => Some (stored_form x)
         end
    else None.
Proof.
  unfold stored_record.
  rewrite (assoc_omap_keep (fun k => stored_form (get_prop parsed k))).
  assert (k ∈ sort_keys Cars_keys ↔ k ∈ Cars_keys) as Hk.
  { unfold sort_keys. by rewrite merge_sort_Permutation. }
  destruct (decide (k ∈ Cars_keys)) as [Hin|Hin].
  - rewrite decide_True by by apply Hk.
    by destruct (get_prop parsed k).
  - rewrite decide_False; [done|]. by rewrite Hk.
Qed.

(** What [Create] and [Update] persist, for any input that parses. *)
Lemma persisted json parsed :
  JSON_parse json = Some parsed →
  ∃ value, Encode (asset_of parsed) = Some value
           ∧ JSON_parse value = Some (JObj (stored_record parsed)).
Proof.
  intros Hp. destruct (Encode_asset_of parsed) as [body Hv].
  exists (String "{" body). split; [done|].
  rewrite <- decoded_asset_of. apply Encode_parse; [|done].
  apply wf_asset_of. by eapply JSON_parse_wf.
Qed.

Lemma Init_puts ws :
  InitGarageCarLedger ws
  = (inr tt, <["assetcar2" := Cars_text seed2]>
               (<["assetcar1" := Cars_text seed1]> ws)).
Proof. reflexivity. Qed.

Lemma Create_Cars json parsed a ws :
  JSON_parse json = Some parsed → Cars_of_js parsed = Some a →
  ws !! ID a = None →
  CreateGarageCarAsset json ws = (inr tt, <[ID a := Cars_text a]> ws).
Proof.
  intros Hp Ha Hk.
  assert (get_prop parsed "ID" = JStr (ID a)) as Hid.
  { apply Cars_of_js_asset in Ha. unfold asset_of, js_of_Cars in Ha.
    by simplify_eq. }
  rewrite (Create_step _ _ _ _ Hp Hid), (exists_absent _ _ Hk).
  by rewrite (Cars_of_js_asset _ _ Ha), Encode_Cars.
Qed.


(** ** The order of insertion, at any depth *)

Lemma assoc_Forall2 {A B} (R : A → B → Prop) k
    (l1 : list (string * A)) (l2 : list (string * B)) :
  Forall2 (fun kv1 kv2 => fst kv1 = fst kv2 ∧ R (snd kv1) (snd kv2)) l1 l2 →
  option_Forall2 R (assoc k l1) (assoc k l2).
Proof.
  induction 1 as [|[k1 v1] [k2 v2] l l' [Hk Hv] Hl IH]; simpl in *.
  - constructor.
  - subst. case_decide; [by constructor|done].
Qed.

Lemma Forall2_keys {A B} (R : A → B → Prop)
    (l1 : list (string * A)) (l2 : list (string * B)) :
  Forall2 (fun kv1 kv2 => fst kv1 = fst kv2 ∧ R (snd kv1) (snd kv2)) l1 l2 →
  map fst l1 = map fst l2.
Proof.
  induction 1 as [|[k1 v1] [k2 v2] l l' [Hk Hv] Hl IH]; [done|].
  simpl in *. by rewrite Hk, IH.
Qed.

(** Two values that are the same record have the same string form. *)
Lemma same_record_undefined x y :
  same_record x y → (x = JUndefined ↔ y = JUndefined) ∧ (x = JNull ↔ y = JNull).
Proof. by destruct 1. Qed.

Lemma same_record_to_string x :
  ∀ y, same_record x y → to_string x = to_string y.
Proof.
  induction x as [| |b|z|t|l IH|fs1 IH] using jsval_ind; intros y Hxy;
    inversion Hxy as [v|l1 l2 Hl|fs1' fs fs2 Hnd Hp Hfs]; subst; try done.
  assert (map (fun x => match x with
                        | JUndefined | JNull => ""
                        | _ => to_string x
                        end) l
          = map (fun x => match x with
                          | JUndefined | JNull => ""
                          | _ => to_string x
                          end) l2) as Hm.
  { clear Hxy. induction Hl as [|x y l l' Hxy Hl IHl]; [done|].
    apply Forall_cons in IH as [IHx IH]. simpl. rewrite (IHl IH). f_equal.
    pose proof (IHx y Hxy) as Hs.
    destruct (same_record_undefined x y Hxy) as [Hu Hn].
    destruct x, y; try done; exfalso; intuition congruence. }
  simpl. by rewrite Hm.
Qed.

Lemma same_record_sort_le x y x' y' :
  same_record x x' → same_record y y' → sort_le x y ↔ sort_le x' y'.
Proof.
  intros Hx Hy. unfold sort_le.
  rewrite <- (same_record_to_string x x' Hx), <- (same_record_to_string y y' Hy).
  destruct (same_record_undefined x x' Hx) as [Hux _].
  destruct (same_record_undefined y y' Hy) as [Huy _].
  destruct x, x', y, y'; try done; exfalso; intuition congruence.
Qed.

Lemma insert_sorted_Forall2 x y l l' :
  same_record x y → Forall2 same_record l l' →
  Forall2 same_record (insert_sorted x l) (insert_sorted y l').
Proof.
  intros Hxy. induction 1 as [|a b l l' Hab Hl IH]; simpl.
  - by repeat constructor.
  - destruct (decide (sort_le x a)) as [Hle|Hle].
    + rewrite decide_True by by apply (same_record_sort_le x a y b).
      by repeat constructor.
    + rewrite decide_False
        by (intros ?; by apply Hle, (same_record_sort_le x a y b)).
      by constructor.
Qed.

Lemma array_sort_Forall2 l l' :
  Forall2 same_record l l' →
  Forall2 same_record (array_sort l) (array_sort l').
Proof.
  induction 1 as [|x y l l' Hxy Hl IH]; simpl; [constructor|].
  by apply insert_sorted_Forall2.
Qed.

Lemma Forall2_omap_keys {A B} (R : A → B → Prop)
    (f : string → option A) (g : string → option B) ks :
  (∀ k, option_Forall2 R (f k) (g k)) →
  Forall2 R (omap f ks) (omap g ks).
Proof.
  intros H. induction ks as [|k ks IH]; csimpl; [constructor|].
  destruct (H k); [by constructor|done].
Qed.

(** The values are the same record before [sortKeysRecursive], and after. *)
Lemma sortKeysRecursive_same_record x :
  ∀ y, same_record x y →
       same_record (sortKeysRecursive x) (sortKeysRecursive y).
Proof.
  induction x as [| |b|z|t|l IH|fs1 IH] using jsval_ind; intros y Hxy;
    inversion Hxy as [v|l1 l2 Hl|fs1' fs fs2 Hnd Hp Hfs]; subst;
    try apply same_value.
  - simpl. apply same_array. by apply array_sort_Forall2.
  - rewrite !sortKeysRecursive_obj.
    rewrite <- (Forall2_keys _ _ _ Hfs).
    rewrite (sort_keys_Permutation (map fst fs1) (map fst fs))
      by (by apply Permutation_map).
    eapply same_object; [|reflexivity|].
    + apply (sublist_NoDup _ (sort_keys (map fst fs)));
        [apply sort_keys_NoDup; by rewrite map_fmap, <- Hp, <- map_fmap|].
      apply omap_keys_sublist. intros k kv. unfold sorted_field.
      destruct (assoc k _); intros; simplify_eq; done.
    + apply Forall2_omap_keys. intros k. unfold sorted_field.
      rewrite !assoc_map.
      rewrite (assoc_Permutation k fs1 fs Hnd Hp).
      pose proof (assoc_Forall2 same_record k fs fs2 Hfs) as Hk.
      destruct (assoc k fs) as [v|] eqn:E; inversion Hk as [v' v2 Hv|]; subst;
        simpl; [|constructor].
      constructor. split; [done|]. simpl.
      assert ((k, v) ∈ fs1) as Hin.
      { rewrite Hp. by apply assoc_Some_elem. }
      by apply (proj1 (Forall_forall _ _) IH (k, v) Hin).
Qed.

(** Two values that are the same record are serialised alike, with the
    keys of every object sorted. *)
Lemma same_record_serialize x :
  ∀ y, same_record x y → serialize sort_keys x = serialize sort_keys y.
Proof.
  induction x as [| |b|z|t|l IH|fs1 IH] using jsval_ind; intros y Hxy;
    inversion Hxy as [v|l1 l2 Hl|fs1' fs fs2 Hnd Hp Hfs]; subst; try done.
  - assert (map (fun x => default "null" (serialize sort_keys x)) l
            = map (fun x => default "null" (serialize sort_keys x)) l2) as Hm.
    { clear Hxy. induction Hl as [|x y l l' Hxy Hl IHl]; [done|].
      apply Forall_cons in IH as [IHx IH]. simpl.
      by rewrite (IHx y Hxy), (IHl IH). }
    simpl. by rewrite Hm.
  - simpl. do 4 f_equal.
    rewrite <- (Forall2_keys _ _ _ Hfs).
    rewrite (sort_keys_Permutation (map fst fs1) (map fst fs))
      by (by apply Permutation_map).
    apply omap_ext_in. intros k _. unfold member.
    rewrite !(assoc_map (serialize sort_keys)).
    rewrite (assoc_Permutation k fs1 fs Hnd Hp).
    pose proof (assoc_Forall2 same_record k fs fs2 Hfs) as Hk.
    destruct (assoc k fs) as [v|] eqn:E; inversion Hk as [v' v2 Hv|]; subst;
      [|done].
    simpl.
    assert ((k, v) ∈ fs1) as Hin.
    { rewrite Hp. by apply assoc_Some_elem. }
    pose proof (proj1 (Forall_forall _ _) IH (k, v) Hin v2 Hv) as Hs.
    simpl in Hs. by rewrite Hs.
Qed.

(** ** The ledger invariant

    [ws_ok] is an invariant of the contract: every transaction function
    keeps it, so it holds in every state the contract can reach from the
    empty ledger. The rules below are the usual ones of a Hoare logic with a
    fixed invariant. *)

Lemma inv_ret {A} (Q : A → Prop) x : Q x → tx_inv Q (ret x).
Proof. intros HQ ws Hok. split; [done|]. by intros y [= <-]. Qed.

Lemma inv_throw {A} (Q : A → Prop) e : tx_inv Q (throw e).
Proof. intros ws Hok. split; [done|]. by intros y [=]. Qed.

Lemma inv_bind {A B} (Q : A → Prop) (R : B → Prop) (m : tx A) (k : A → tx B) :
  tx_inv Q m → (∀ x, Q x → tx_inv R (k x)) → tx_inv R (bind m k).
Proof.
  intros Hm Hk ws Hok. unfold bind.
  destruct (Hm ws Hok) as [Hok' HQ].
  destruct (m ws) as [[e|x] ws']; simpl in *.
  - split; [done|]. by intros y [=].
  - apply (Hk x); auto.
Qed.

Lemma inv_weaken {A} (Q R : A → Prop) (m : tx A) :
  (∀ x, Q x → R x) → tx_inv Q m → tx_inv R m.
Proof. intros HQR Hm ws Hok. destruct (Hm ws Hok). split; auto. Qed.

Lemma inv_read_key k : tx_inv (fun _ => True) (read_key k).
Proof. intros ws Hok. by split. Qed.

Lemma inv_write_key k value : tx_inv (fun _ => True) (write_key k value).
Proof.
  intros ws Hok. split; [|done]. simpl.
  destruct value; simpl; [by apply map_Forall_delete|by apply ws_ok_insert].
Qed.

Lemma inv_delete_key k : tx_inv (fun _ => True) (delete_key k).
Proof. intros ws Hok. split; [|done]. by apply map_Forall_delete. Qed.

Lemma inv_getState key : tx_inv (fun _ => True) (getState key).
Proof.
  unfold getState. destruct (fault _ key); [apply inv_throw|apply inv_read_key].
Qed.

Lemma inv_putState key value : tx_inv (fun _ => True) (putState key value).
Proof.
  unfold putState. destruct (fault _ key); [apply inv_throw|apply inv_write_key].
Qed.

Lemma inv_deleteState key : tx_inv (fun _ => True) (deleteState key).
Proof.
  unfold deleteState. destruct (fault _ key); [apply inv_throw|apply inv_delete_key].
Qed.

Lemma inv_getStateByRange startKey endKey :
  tx_inv (fun _ => True) (getStateByRange startKey endKey).
Proof. intros ws Hok. by split. Qed.

Lemma inv_JSON_parse_tx text : tx_inv (fun _ => True) (JSON_parse_tx text).
Proof. unfold JSON_parse_tx. destruct (JSON_parse text); [by apply inv_ret|apply inv_throw]. Qed.

Lemma inv_read_prop v k : tx_inv (fun _ => True) (read_prop v k).
Proof. destruct v; simpl; (apply inv_throw || by apply inv_ret). Qed.

Lemma inv_write_prop v k x : tx_inv (fun _ => True) (write_prop v k x).
Proof. destruct v; simpl; (apply inv_throw || by apply inv_ret). Qed.

Lemma inv_Buffer_from s : tx_inv (fun _ => True) (Buffer_from s).
Proof. destruct s; [by apply inv_ret|apply inv_throw]. Qed.

Lemma inv_for_of {A} (l : list A) (body : A → tx unit) :
  (∀ x, tx_inv (fun _ => True) (body x)) → tx_inv (fun _ => True) (for_of l body).
Proof.
  intros Hb. induction l as [|x l IH]; simpl; [by apply inv_ret|].
  eapply inv_bind; [apply Hb|]. by intros.
Qed.

Create HintDb inv discriminated.
#[local] Hint Resolve inv_throw inv_getState inv_putState inv_deleteState
  inv_getStateByRange inv_JSON_parse_tx inv_Buffer_from inv_read_prop
  inv_write_prop : inv.

Ltac inv_step :=
  first
    [ eapply inv_bind; [solve [eauto with inv]|intros ? _]
    | apply inv_ret; exact I
    | solve [eauto with inv]
    | match goal with |- tx_inv _ (if ?b then _ else _) => destruct b end
    | match goal with |- tx_inv _ (match ?v with _ => _ end) => destruct v end ].

Lemma inv_Exists id : tx_inv (fun _ => True) (AssetGarageCarExists id).
Proof. unfold AssetGarageCarExists. repeat inv_step. Qed.

Lemma inv_Read id : tx_inv (fun _ => True) (ReadGarageCarAsset id).
Proof. unfold ReadGarageCarAsset. repeat inv_step. Qed.

#[local] Hint Resolve inv_Exists inv_Read : inv.

Lemma inv_Init : tx_inv (fun _ => True) InitGarageCarLedger.
Proof. apply inv_for_of. intros asset. repeat inv_step. Qed.

Lemma inv_Create json : tx_inv (fun _ => True) (CreateGarageCarAsset json).
Proof. unfold CreateGarageCarAsset. repeat inv_step. Qed.

Lemma inv_Update json : tx_inv (fun _ => True) (UpdateGarageCarAsset json).
Proof. unfold UpdateGarageCarAsset. repeat inv_step. Qed.

Lemma inv_Delete id : tx_inv (fun _ => True) (DeleteGarageCarAsset id).
Proof. unfold DeleteGarageCarAsset. repeat inv_step. Qed.

Lemma inv_Transfer id newOwner :
  tx_inv (fun _ => True) (TransferGarageCarAsset id newOwner).
Proof. unfold TransferGarageCarAsset. repeat inv_step. Qed.

Lemma inv_GetAll : tx_inv (fun _ => True) GetAllGarageCars.
Proof. unfold GetAllGarageCars. repeat inv_step. Qed.

(** Every transaction keeps the ledger invariant, whether it returns or
    throws. *)
Lemma commit_ws_ok t ws : ws_ok ws → ws_ok (commit t ws).
Proof.
  intros Hok. destruct t; simpl.
  - apply (inv_Init ws Hok).
  - apply (inv_Create json ws Hok).
  - apply (inv_Read id ws Hok).
  - apply (inv_Update json ws Hok).
  - apply (inv_Delete id ws Hok).
  - apply (inv_Exists (JStr id) ws Hok).
  - apply (inv_Transfer id newOwner ws Hok).
  - apply (inv_GetAll ws Hok).
Qed.

Lemma reachable_ws_ok ws : reachable ws → ws_ok ws.
Proof.
  induction 1 as [|t ws _ IH]; [apply ws_ok_empty|by apply commit_ws_ok].
Qed.

(** ** Steps of Delete and Update *)

Lemma Encode_obj_brace fs : ∃ body, Encode (JObj fs) = Some (String "{" body).
Proof. eexists. reflexivity. Qed.

Lemma Delete_step id ws :
  DeleteGarageCarAsset id ws =
    match AssetGarageCarExists (JStr id) ws with
    | (inr true, ws') => (inr tt, delete id ws')
    | (inr false, ws') => (inl (NotFound id), ws')
    | (inl e, ws') => (inl e, ws')
    end.
Proof.
  unfold DeleteGarageCarAsset, bind.
  by destruct (AssetGarageCarExists (JStr id) ws) as [[e|[]] ws'].
Qed.

Lemma Update_Cars json parsed a ws :
  ws_ok ws →
  JSON_parse json = Some parsed → Cars_of_js parsed = Some a →
  is_Some (ws !! ID a) →
  UpdateGarageCarAsset json ws = (inr tt, <[ID a := Cars_text a]> ws).
Proof.
  intros Hok Hp Ha [old Hk].
  assert (get_prop parsed "ID" = JStr (ID a)) as Hid.
  { apply Cars_of_js_asset in Ha. unfold asset_of, js_of_Cars in Ha.
    by simplify_eq. }
  rewrite (Update_step _ _ _ _ Hp Hid), (exists_present _ _ _ Hok Hk).
  by rewrite (Cars_of_js_asset _ _ Ha), Encode_Cars.
Qed.

(** ** Properties of a record as it is stored *)

Lemma assoc_omap_sorted_field fs' k ks :
  assoc k (omap (sorted_field fs') ks)
  = if decide (k ∈ ks) then assoc k fs' else None.
Proof.
  induction ks as [|k0 ks IH]; [done|]. csimpl. unfold sorted_field at 1.
  destruct (decide (k = k0)) as [->|Hne].
  - rewrite decide_True by apply list_elem_of_here.
    destruct (assoc k0 fs') as [v|] eqn:Hv; simpl.
    + by rewrite decide_True.
    + rewrite IH. by case_decide.
  - assert (assoc k (match match assoc k0 fs' with
                           | Some v' => Some (k0, v')
                           | None => None
                           end with
                     | Some y => y :: omap (sorted_field fs') ks
                     | None => omap (sorted_field fs') ks
                     end) = assoc k (omap (sorted_field fs') ks)) as ->.
    { destruct (assoc k0 fs'); simpl; rewrite ?decide_False by done; done. }
    rewrite IH. destruct (decide (k ∈ ks)) as [Hin|Hin].
    + rewrite decide_True; [done|]. by apply list_elem_of_further.
    + rewrite decide_False; [done|]. by intros [?|?]%elem_of_cons.
Qed.

Lemma elem_of_sort_keys k ks : k ∈ sort_keys ks ↔ k ∈ ks.
Proof. unfold sort_keys. by rewrite merge_sort_Permutation. Qed.

Lemma assoc_sorted fs k :
  assoc k (omap (sorted_field
                   (map (fun kv => (fst kv, sortKeysRecursive (snd kv))) fs))
                (sort_keys (map fst fs)))
  = sortKeysRecursive <$> assoc k fs.
Proof.
  rewrite assoc_omap_sorted_field, assoc_map.
  case_decide as Hk; [done|]. rewrite elem_of_sort_keys in Hk.
  apply assoc_None_keys in Hk. by rewrite Hk.
Qed.

(** A property of the record read back from the canonical encoding of an
    object is the stored form of that property of the object. *)
Lemma get_prop_stored fs k :
  get_prop (decoded sort_keys (sortKeysRecursive (JObj fs))) k
  = stored_form (get_prop (JObj fs) k).
Proof.
  rewrite sortKeysRecursive_obj, decoded_obj. unfold get_prop, member_values.
  rewrite assoc_omap_kept. unfold kept. rewrite assoc_map, assoc_sorted.
  destruct (assoc k fs) as [x|] eqn:Hx; simpl.
  - case_decide as Hk.
    + change (decoded sort_keys (sortKeysRecursive x)) with (stored_form x).
      by destruct (stored_form x).
    + exfalso. apply Hk. rewrite elem_of_sort_keys.
      apply assoc_Some_elem in Hx.
      assert (assoc k (omap (sorted_field
                (map (fun kv => (fst kv, sortKeysRecursive (snd kv))) fs))
                (sort_keys (map fst fs))) ≠ None) as Hs.
      { rewrite assoc_sorted.
        destruct (assoc k fs) eqn:Hy; [done|].
        apply assoc_None_keys in Hy. exfalso. apply Hy.
        rewrite map_fmap. apply list_elem_of_fmap. by exists (k, x). }
      destruct (decide (k ∈ map fst (omap (sorted_field
                (map (fun kv => (fst kv, sortKeysRecursive (snd kv))) fs))
                (sort_keys (map fst fs))))) as [Hin|Hin]; [done|].
      by apply assoc_None_keys in Hin.
  - by case_decide.
Qed.

Lemma get_prop_obj_set k v fs k' :
  get_prop (JObj (obj_set k v fs)) k'
  = if decide (k' = k) then v else get_prop (JObj fs) k'.
Proof.
  unfold get_prop. induction fs as [|[k0 v0] fs IH]; simpl.
  - by case_decide.
  - destruct (decide (k = k0)) as [->|Hne]; simpl.
    + by destruct (decide (k' = k0)).
    + destruct (decide (k' = k0)) as [->|Hne']; [|done].
      by rewrite decide_False.
Qed.

Lemma JSON_parse_nonempty text v : JSON_parse text = Some v → text ≠ "".
Proof. by intros H ->. Qed.

(** ** Transfer on a stored object *)

Lemma Transfer_obj id newOwner stored fs ws :
  ws !! id = Some stored →
  JSON_parse stored = Some (JObj fs) →
  ∃ body,
    Encode (JObj (obj_set "Owner" (JStr newOwner) fs))
      = Some (String "{" body)
    ∧ TransferGarageCarAsset id newOwner ws
      = (inr (get_prop (JObj fs) "Owner"), <[id := String "{" body]> ws).
Proof.
  intros Hk Hp.
  destruct (Encode_obj_brace (obj_set "Owner" (JStr newOwner) fs))
    as [body Hv].
  exists body. split; [done|].
  unfold TransferGarageCarAsset, bind at 1.
  rewrite (Read_stored _ _ _ Hk (JSON_parse_nonempty _ _ Hp)).
  unfold JSON_parse_tx, bind at 1. rewrite Hp.
  unfold ret at 1, read_prop, ret at 1, bind at 1, write_prop, ret at 1, bind at 1.
  unfold Encode in Hv. rewrite Hv. reflexivity.
Qed.

(** ** What a transaction function writes *)

Lemma bind_ret {A B} (x : A) (k : A → tx B) ws : bind (ret x) k ws = k x ws.
Proof. reflexivity. Qed.

Lemma read_only_ret {A} (x : A) : read_only (ret x).
Proof. done. Qed.

Lemma read_only_throw {A} e : read_only (@throw A e).
Proof. done. Qed.

Lemma read_only_bind {A B} (m : tx A) (k : A → tx B) :
  read_only m → (∀ x, read_only (k x)) → read_only (bind m k).
Proof.
  intros Hm Hk ws. unfold bind. specialize (Hm ws).
  destruct (m ws) as [[e|x] ws']; simpl in *; subst; [done|apply Hk].
Qed.

Lemma read_only_getState key : read_only (getState key).
Proof. unfold getState. by destruct (fault _ key). Qed.

Lemma read_only_JSON_parse_tx text : read_only (JSON_parse_tx text).
Proof. unfold JSON_parse_tx. by destruct (JSON_parse text). Qed.

Lemma read_only_read_prop v k : read_only (read_prop v k).
Proof. by destruct v. Qed.

Lemma read_only_write_prop v k x : read_only (write_prop v k x).
Proof. by destruct v. Qed.

Lemma read_only_Buffer_from s : read_only (Buffer_from s).
Proof. by destruct s. Qed.

Lemma read_only_Exists id : read_only (AssetGarageCarExists id).
Proof.
  apply read_only_bind; [apply read_only_getState|]. intros x. apply read_only_ret.
Qed.

Lemma read_only_Read id : read_only (ReadGarageCarAsset id).
Proof.
  apply read_only_bind; [apply read_only_getState|]. intros x.
  by destruct (String.length x =? 0)%nat.
Qed.

Lemma atomic_read_only {A} (m : tx A) : read_only m → atomic m.
Proof. intros Hm ws e _. apply Hm. Qed.

Lemma atomic_bind {A B} (m : tx A) (k : A → tx B) :
  read_only m → (∀ x, atomic (k x)) → atomic (bind m k).
Proof.
  intros Hm Hk ws e. unfold bind. specialize (Hm ws).
  destruct (m ws) as [[e'|x] ws']; simpl in *; subst; [done|apply Hk].
Qed.

Lemma atomic_putState key value : atomic (putState key value).
Proof. unfold putState. by destruct (fault _ key); intros ws e'. Qed.

Lemma atomic_deleteState key : atomic (deleteState key).
Proof. unfold deleteState. by destruct (fault _ key); intros ws e'. Qed.

Lemma atomic_bind_ret {A B} (m : tx A) (y : B) :
  atomic m → atomic (bind m (fun _ => ret y)).
Proof.
  intros Hm ws e. unfold bind, ret. specialize (Hm ws).
  destruct (m ws) as [[e'|x] ws']; simpl in *; [eauto|done].
Qed.

Ltac atomic_step :=
  first
    [ apply atomic_putState
    | apply atomic_deleteState
    | apply atomic_bind_ret
    | apply atomic_read_only, read_only_throw
    | apply atomic_bind;
      [ first [ apply read_only_JSON_parse_tx | apply read_only_read_prop
              | apply read_only_write_prop | apply read_only_Buffer_from
              | apply read_only_Exists | apply read_only_Read ]
      | intros ? ]
    | match goal with |- atomic (if ?b then _ else _) => destruct b end ].

Lemma Transfer_Cars a id newOwner ws :
  ws !! id = Some (Cars_text a) →
  TransferGarageCarAsset id newOwner ws
  = (inr (JStr (Owner a)), <[id := Cars_text (set_Owner a newOwner)]> ws).
Proof.
  intros Hk. unfold TransferGarageCarAsset, bind at 1.
  rewrite (Read_stored _ _ _ Hk) by apply Cars_text_nonempty.
  unfold JSON_parse_tx, bind at 1. by rewrite JSON_parse_Cars_text.
Qed.

Lemma exists_true_present id ws ws' :
  AssetGarageCarExists (JStr id) ws = (inr true, ws') → is_Some (ws !! id).
Proof.
  tx_unfold. destruct (ws !! id) as [v|]; [eauto|]. simpl. discriminate.
Qed.

(** [Create] and [Update] on an input that parses and is not [null],
    whatever its [ID] is. *)
Lemma read_prop_defined parsed k :
  parsed ≠ JNull → parsed ≠ JUndefined →
  read_prop parsed k = ret (get_prop parsed k).
Proof. by destruct parsed. Qed.

Lemma null_or_defined parsed :
  (parsed = JNull ∨ parsed = JUndefined)
  ∨ (parsed ≠ JNull ∧ parsed ≠ JUndefined).
Proof. destruct parsed; try (right; split; discriminate); auto. Qed.

Lemma Exists_run id ws :
  AssetGarageCarExists id ws
  = match fault getState_fault id with
    | Some e => (inl e, ws)
    | None => (inr (0 <? String.length (default "" (ws !! key_of id)))%nat, ws)
    end.
Proof.
  unfold AssetGarageCarExists, getState. by destruct (fault getState_fault id).
Qed.

Lemma putState_run id value ws :
  putState id (String "{" value) ws
  = match fault putState_fault id with
    | Some e => (inl e, ws)
    | None => (inr tt, <[key_of id := String "{" value]> ws)
    end.
Proof. unfold putState. by destruct (fault putState_fault id). Qed.

Lemma Create_run json parsed ws :
  JSON_parse json = Some parsed → parsed ≠ JNull → parsed ≠ JUndefined →
  CreateGarageCarAsset json ws
  = match AssetGarageCarExists (get_prop parsed "ID") ws with
    | (inl e, _) => (inl e, ws)
    | (inr true, _) =>
        (inl (Error ("The asset " +:+ to_string (get_prop parsed "ID")
                     +:+ " already exists")), ws)
    | (inr false, _) =>
        match Encode (asset_of parsed) with
        | Some value => putState (get_prop parsed "ID") value ws
        | None => (inl TypeError, ws)
        end
    end.
Proof.
  intros Hp Hn Hu. unfold CreateGarageCarAsset, JSON_parse_tx.
  rewrite Hp, bind_ret. cbv beta.
  rewrite (read_prop_defined _ _ Hn Hu), bind_ret. cbv beta.
  unfold bind at 1. rewrite Exists_run.
  destruct (fault getState_fault (get_prop parsed "ID")); [done|].
  destruct (0 <? _)%nat; [done|].
  change (JObj _) with (asset_of parsed).
  change (stringify (sortKeysRecursive (asset_of parsed)))
    with (Encode (asset_of parsed)).
  unfold bind. by destruct (Encode (asset_of parsed)).
Qed.

Lemma Update_run json parsed ws :
  JSON_parse json = Some parsed → parsed ≠ JNull → parsed ≠ JUndefined →
  UpdateGarageCarAsset json ws
  = match AssetGarageCarExists (get_prop parsed "ID") ws with
    | (inl e, _) => (inl e, ws)
    | (inr false, _) =>
        (inl (Error ("The asset " +:+ to_string (get_prop parsed "ID")
                     +:+ " does not exist")), ws)
    | (inr true, _) =>
        match Encode (asset_of parsed) with
        | Some value => putState (get_prop parsed "ID") value ws
        | None => (inl TypeError, ws)
        end
    end.
Proof.
  intros Hp Hn Hu. unfold UpdateGarageCarAsset, JSON_parse_tx.
  rewrite Hp, bind_ret. cbv beta.
  rewrite (read_prop_defined _ _ Hn Hu), bind_ret. cbv beta.
  unfold bind at 1. rewrite Exists_run.
  destruct (fault getState_fault (get_prop parsed "ID")); [done|].
  destruct (0 <? _)%nat; [|done]. simpl negb. cbv iota.
  change (JObj _) with (asset_of parsed).
  change (stringify (sortKeysRecursive (asset_of parsed)))
    with (Encode (asset_of parsed)).
  unfold bind. by destruct (Encode (asset_of parsed)).
Qed.

Lemma Update_null json parsed ws :
  JSON_parse json = Some parsed → parsed = JNull ∨ parsed = JUndefined →
  UpdateGarageCarAsset json ws = (inl TypeError, ws).
Proof.
  intros Hp Hn. unfold UpdateGarageCarAsset, JSON_parse_tx.
  rewrite Hp, bind_ret. cbv beta. by destruct Hn as [-> | ->].
Qed.

(** [Update] leaves the state it was given, or writes under a key that is
    present. *)
Lemma Update_writes json ws :
  snd (UpdateGarageCarAsset json ws) = ws
  ∨ ∃ k value, is_Some (ws !! k)
               ∧ snd (UpdateGarageCarAsset json ws) = <[k := value]> ws.
Proof.
  destruct (JSON_parse json) as [parsed|] eqn:Hp.
  2:{ left. unfold UpdateGarageCarAsset, JSON_parse_tx, bind at 1.
      by rewrite Hp. }
  destruct (null_or_defined parsed) as [Hn|[Hn Hu]];
    [left; by rewrite (Update_null json parsed)|].
  rewrite (Update_run json parsed ws Hp Hn Hu), Exists_run.
  destruct (fault getState_fault _); [by left|].
  destruct (ws !! key_of (get_prop parsed "ID")) as [v|] eqn:Hk; [|by left].
  simpl default. destruct (0 <? _)%nat; [|by left].
  destruct (Encode_asset_of parsed) as [body ->]. rewrite putState_run.
  destruct (fault putState_fault _); [by left|].
  right. eexists _, _. split; [eauto|done].
Qed.

(** ** Update and Transfer write under a key that is present *)

Lemma Transfer_step id newOwner stored ws :
  ws !! id = Some stored → stored ≠ "" →
  TransferGarageCarAsset id newOwner ws
  = match JSON_parse stored with
    | Some asset =>
        (let! oldOwner := read_prop asset "Owner" in
         let! asset := write_prop asset "Owner" (JStr newOwner) in
         let! value := Buffer_from (stringify (sortKeysRecursive asset)) in
         let! _ := putState (JStr id) value in
         ret oldOwner) ws
    | None => (inl SyntaxError, ws)
    end.
Proof.
  intros Hk Hs. unfold TransferGarageCarAsset, bind at 1.
  rewrite (Read_stored _ _ _ Hk Hs). unfold JSON_parse_tx.
  by destruct (JSON_parse stored).
Qed.

Lemma Transfer_writes id newOwner ws :
  snd (TransferGarageCarAsset id newOwner ws) = ws
  ∨ ∃ value, is_Some (ws !! id)
             ∧ snd (TransferGarageCarAsset id newOwner ws) = <[id := value]> ws.
Proof.
  destruct (ws !! id) as [stored|] eqn:Hk.
  2:{ left. unfold TransferGarageCarAsset, bind at 1.
      by rewrite (Read_absent _ _ Hk). }
  destruct (decide (stored = "")) as [->|Hs].
  { left.
    cbv beta iota delta [TransferGarageCarAsset ReadGarageCarAsset getState
                           fault key_of read_key bind].
    by rewrite Hk. }
  rewrite (Transfer_step _ _ _ _ Hk Hs).
  destruct (JSON_parse stored) as [[| | | | |l|fs]|];
    try (left; reflexivity).
  - right. eexists. split; [eauto|]. reflexivity.
  - right. eexists. split; [eauto|]. reflexivity.
Qed.

Lemma dom_insert_present (id value : string) (ws : gmap string string) :
  is_Some (ws !! id) → dom (<[id := value]> ws) = dom ws.
Proof.
  intros Hk. rewrite dom_insert_L.
  apply subseteq_union_1_L, singleton_subseteq_l. by apply elem_of_dom.
Qed.

(** ** [JSON.parse] yields no [undefined] *)

Lemma parse_defined fuel :
  (∀ s v r, parse_value fuel s = Some (v, r) → v ≠ JUndefined)
  ∧ (∀ acc s v r, parse_members fuel acc s = Some (v, r) → ∃ fs, v = JObj fs)
  ∧ (∀ acc s v r, parse_elements fuel acc s = Some (v, r) → ∃ l, v = JArr l).
Proof.
  induction fuel as [|fuel (IHv & IHm & IHe)]; [done|]. split_and!.
  - intros s v r. simpl.
    destruct (skip_ws s) as [|c t]; [done|].
    destruct (Ascii.eqb c dquote).
    { destruct (parse_chars t) as [[x r']|]; intros; simplify_eq; done. }
    intros H.
    assert (parse_number (String c t) = Some (v, r)
            ∨ (∃ t', parse_members fuel [] t' = Some (v, r))
            ∨ (∃ t', parse_elements fuel [] t' = Some (v, r))
            ∨ v ≠ JUndefined) as [Hn|[[t' Hm]|[[t' He]|Hw]]].
    { repeat case_match; simplify_eq; eauto 6. }
    + unfold parse_number in Hn. repeat case_match; simplify_eq; done.
    + apply IHm in Hm as [fs ->]. done.
    + apply IHe in He as [l ->]. done.
    + done.
  - intros acc s v r. simpl.
    destruct (skip_ws s) as [|c t]; [done|].
    destruct (Ascii.eqb c dquote); [|done].
    destruct (parse_chars t) as [[k r1]|]; [|done].
    destruct (skip_ws r1) as [|c2 r2]; [done|].
    intros H.
    assert (∃ x, (∃ r4, parse_members fuel (obj_set k x acc) r4 = Some (v, r))
                 ∨ v = JObj (obj_set k x acc)) as (x & [[r4 Hr]| ->]).
    { repeat case_match; simplify_eq; eauto 8. }
    + by eapply IHm.
    + eauto.
  - intros acc s v r. simpl.
    destruct (parse_value fuel s) as [[x r1]|] eqn:Hx; [|done].
    intros H. repeat case_match; simplify_eq; eauto.
Qed.

Lemma JSON_parse_defined text v : JSON_parse text = Some v → v ≠ JUndefined.
Proof.
  unfold JSON_parse.
  destruct (parse_value _ text) as [[x r]|] eqn:Hx; [|done].
  apply parse_defined in Hx. by destruct (skip_ws r); intros; simplify_eq.
Qed.

(** ** The outcomes of Create and Update, whatever the [ID] is *)

Lemma present_ws_ok ws k :
  ws_ok ws →
  (0 <? String.length (default "" (ws !! k)))%nat
  = match ws !! k with Some _ => true | None => false end.
Proof.
  intros Hok. destruct (ws !! k) as [v|] eqn:Hk; [|done]. simpl.
  by apply str_length_pos, (ws_ok_lookup ws k).
Qed.

Lemma Create_table json parsed ws :
  ws_ok ws → JSON_parse json = Some parsed → parsed ≠ JNull →
  ∃ body,
    Encode (asset_of parsed) = Some (String "{" body)
    ∧ CreateGarageCarAsset json ws
      = Create_outcome (get_prop parsed "ID") (String "{" body) ws.
Proof.
  intros Hok Hp Hn. destruct (Encode_asset_of parsed) as [body Hv].
  exists body. split; [done|].
  rewrite (Create_run json parsed ws Hp Hn (JSON_parse_defined _ _ Hp)).
  rewrite Exists_run, Hv, putState_run. unfold Create_outcome.
  destruct (fault getState_fault _); [done|].
  rewrite (present_ws_ok _ _ Hok). by destruct (ws !! _).
Qed.

Lemma Update_table json parsed ws :
  ws_ok ws → JSON_parse json = Some parsed → parsed ≠ JNull →
  ∃ body,
    Encode (asset_of parsed) = Some (String "{" body)
    ∧ UpdateGarageCarAsset json ws
      = Update_outcome (get_prop parsed "ID") (String "{" body) ws.
Proof.
  intros Hok Hp Hn. destruct (Encode_asset_of parsed) as [body Hv].
  exists body. split; [done|].
  rewrite (Update_run json parsed ws Hp Hn (JSON_parse_defined _ _ Hp)).
  rewrite Exists_run, Hv, putState_run. unfold Update_outcome.
  destruct (fault getState_fault _); [done|].
  rewrite (present_ws_ok _ _ Hok). by destruct (ws !! _).
Qed.

Lemma stored_form_primitive x : primitive x = true → stored_form x = x.
Proof. by destruct x. Qed.

(** ** The writing transactions write last *)

Lemma atomic_Create json : atomic (CreateGarageCarAsset json).
Proof. unfold CreateGarageCarAsset. repeat atomic_step. Qed.

Lemma atomic_Update json : atomic (UpdateGarageCarAsset json).
Proof. unfold UpdateGarageCarAsset. repeat atomic_step. Qed.

Lemma atomic_Delete id : atomic (DeleteGarageCarAsset id).
Proof. unfold DeleteGarageCarAsset. repeat atomic_step. Qed.

Lemma atomic_Transfer id newOwner :
  atomic (TransferGarageCarAsset id newOwner).
Proof. unfold TransferGarageCarAsset. repeat atomic_step. Qed.

End proofs.

(** * The claims *)

Lemma seed1_json_parses : JSON_parse seed1_json = Some (js_of_Cars seed1).
Proof. by vm_compute. Qed.

(** C1. Two records with the same property names and values, whatever the
    order in which the properties were inserted, have the same canonical
    encoding: [stringify(sortKeysRecursive(record))] yields the same bytes
    for both. It does yield bytes when the record is plain data. *)
Theorem Encode_insertion_order (fields1 fields2 : list (string * jsval)) :
  NoDup (map fst fields1) →
  fields1 ≡ₚ fields2 →
  Encode (JObj fields1) = Encode (JObj fields2)
  ∧ (plain (JObj fields1) = true → is_Some (Encode (JObj fields1))).
Proof.
  intros Hnd Hp. split; [|intros _; apply Encode_obj_Some]. unfold Encode.
  by rewrite (sortKeysRecursive_Permutation fields1 fields2).
Qed.
Lemma Encode_insertion_order_witness :
  Encode (JObj [("ID", JStr "assetcar1"); ("Owner", JStr "Ajith");
                ("Year", JNum 2023)])
  = Encode (JObj [("Year", JNum 2023); ("Owner", JStr "Ajith");
                  ("ID", JStr "assetcar1")]).
Proof.
  apply Encode_insertion_order.
  - apply (bool_decide_unpack _). vm_compute. exact I.
  - apply (reverse_Permutation
             [("Year", JNum 2023); ("Owner", JStr "Ajith");
              ("ID", JStr "assetcar1")]).
Defined.

(** C2. The canonical encoding is a function of the record, and it is
    injective on asset records: two records that differ in some field are
    both encoded, to different bytes. *)
Theorem Encode_injective (a b : Cars) :
  a ≠ b →
  ∃ bytes_a bytes_b,
    Encode (js_of_Cars a) = Some bytes_a
    ∧ Encode (js_of_Cars b) = Some bytes_b
    ∧ bytes_a ≠ bytes_b.
Proof.
  intros Hab. exists (Cars_text a), (Cars_text b).
  split_and!; [apply Encode_Cars..|].
  intros Heq. apply Hab.
  assert (Some (Cars_canonical a) = Some (Cars_canonical b)) as Hc.
  { by rewrite <- !JSON_parse_Cars_text, Heq. }
  assert (Some a = Some b) as Hs; [|by injection Hs].
  rewrite <- (Cars_of_js_canonical a), <- (Cars_of_js_canonical b).
  f_equal. congruence.
Qed.

Lemma Encode_injective_witness :
  ∃ bytes_a bytes_b,
    Encode (js_of_Cars seed1) = Some bytes_a
    ∧ Encode (js_of_Cars seed2) = Some bytes_b
    ∧ bytes_a ≠ bytes_b.
Proof. apply Encode_injective. vm_compute. discriminate. Defined.

(** C3. [Create] of an asset record on a state without its [ID], followed by
    [Read] of that [ID], returns text that decodes to a record equal to the
    input in all eight fields. The record is one JavaScript holds exactly:
    [Year] and [Mileage] are safe integers, its [ID] is a simple key, and
    the request is a text of the modelled fragment. *)
Theorem Create_then_Read `{stub : Stub} (a : Cars) (json : string)
    (parsed : jsval) (ws : gmap string string) :
  supported json = true →
  JSON_parse json = Some parsed →
  Cars_of_js parsed = Some a →
  Cars_safe a →
  simple_key (ID a) = true →
  ws !! ID a = None →
  ∃ ws' text record,
    CreateGarageCarAsset json ws = (inr tt, ws')
    ∧ ReadGarageCarAsset (ID a) ws' = (inr text, ws')
    ∧ JSON_parse text = Some record
    ∧ Cars_of_js record = Some a.
Proof.
  intros _ Hp Ha _ _ Hk.
  exists (<[ID a := Cars_text a]> ws), (Cars_text a), (Cars_canonical a).
  split_and!.
  - exact (Create_Cars json parsed a ws Hp Ha Hk).
  - apply Read_stored; [apply lookup_insert_eq|done].
  - apply JSON_parse_Cars_text.
  - apply Cars_of_js_canonical.
Qed.
Lemma Create_then_Read_witness :
  ∃ ws' text record,
    CreateGarageCarAsset (stub := strict) seed1_json ∅ = (inr tt, ws')
    ∧ ReadGarageCarAsset (stub := strict) "assetcar1" ws' = (inr text, ws')
    ∧ JSON_parse text = Some record
    ∧ Cars_of_js record = Some seed1.
Proof.
  apply (Create_then_Read (stub := strict) seed1 seed1_json
           (js_of_Cars seed1) ∅).
  - vm_compute. reflexivity.
  - vm_compute. reflexivity.
  - reflexivity.
  - unfold Cars_safe, safe_integer. simpl. lia.
  - reflexivity.
  - reflexivity.
Defined.
(** C4. [Create] on a key that is present fails with [AlreadyExists] and
    leaves the whole state as it was. On a simple key that is absent it
    succeeds and the new state is the old one with that one key added, for
    a request of the modelled fragment whose eight properties are plain
    data; for an asset record of safe integers the value added is the
    canonical encoding of the record. *)
Theorem Create_exists_or_inserts `{stub : Stub} (json : string)
    (parsed : jsval) (id : string) (ws : gmap string string) :
  ws_ok ws →
  JSON_parse json = Some parsed →
  get_prop parsed "ID" = JStr id →
  (is_Some (ws !! id) →
     CreateGarageCarAsset json ws = (inl (AlreadyExists id), ws))
  ∧ (ws !! id = None →
     simple_key id = true →
     supported json = true →
     plain (asset_of parsed) = true →
     ∃ value, value ≠ ""
       ∧ CreateGarageCarAsset json ws = (inr tt, <[id := value]> ws)
       ∧ (<[id := value]> ws) !! id = Some value
       ∧ ∀ k, k ≠ id → (<[id := value]> ws) !! k = ws !! k)
  ∧ (∀ a, ws !! id = None →
     simple_key id = true →
     supported json = true →
     Cars_of_js parsed = Some a →
     Cars_safe a →
     Encode (js_of_Cars a) = Some (Cars_text a)
     ∧ CreateGarageCarAsset json ws = (inr tt, <[id := Cars_text a]> ws)).
Proof.
  intros Hok Hp Hid. split_and!.
  - intros [v Hv].
    by rewrite (Create_step _ _ _ _ Hp Hid), (exists_present _ _ _ Hok Hv).
  - intros Hnone _ _ _.
    rewrite (Create_step _ _ _ _ Hp Hid), (exists_absent _ _ Hnone).
    destruct (Encode_asset_of parsed) as [body Hv].
    exists (String "{" body). rewrite Hv. split_and!; [done..| |].
    + apply lookup_insert_eq.
    + intros k Hk. by apply lookup_insert_ne.
  - intros a Hnone _ _ Ha _. split; [apply Encode_Cars|].
    assert (id = ID a) as ->.
    { apply Cars_of_js_asset in Ha. unfold asset_of, js_of_Cars in Ha.
      rewrite Hid in Ha. by simplify_eq. }
    by apply (Create_Cars json parsed).
Qed.
Lemma Create_exists_or_inserts_witness :
  CreateGarageCarAsset (stub := strict) seed1_json
    {["assetcar1" := Cars_text seed2]}
  = (inl (AlreadyExists "assetcar1"), {["assetcar1" := Cars_text seed2]})
  ∧ CreateGarageCarAsset (stub := strict) seed1_json ∅
    = (inr tt, <["assetcar1" := Cars_text seed1]> ∅).
Proof.
  split.
  - apply (Create_exists_or_inserts (stub := strict) seed1_json
             (js_of_Cars seed1) "assetcar1"
             {["assetcar1" := Cars_text seed2]}).
    + apply ws_ok_insert; [discriminate|apply ws_ok_empty].
    + vm_compute. reflexivity.
    + reflexivity.
    + exists (Cars_text seed2). apply lookup_singleton_eq.
  - apply (Create_exists_or_inserts (stub := strict) seed1_json
             (js_of_Cars seed1) "assetcar1" ∅).
    + apply ws_ok_empty.
    + vm_compute. reflexivity.
    + reflexivity.
    + reflexivity.
    + reflexivity.
    + vm_compute. reflexivity.
    + reflexivity.
    + unfold Cars_safe, safe_integer. simpl. lia.
Defined.
(** C5. On a key that is absent, [Update], [Delete] and [Transfer] each throw
    the "does not exist" error, and the state they leave is the state they
    were given. *)
Theorem absent_key_NotFound `{stub : Stub} (id : string) (ws : gmap string string) :
  ws !! id = None →
  (∀ json parsed,
     JSON_parse json = Some parsed → get_prop parsed "ID" = JStr id →
     UpdateGarageCarAsset json ws = (inl (NotFound id), ws))
  ∧ DeleteGarageCarAsset id ws = (inl (NotFound id), ws)
  ∧ (∀ newOwner,
     TransferGarageCarAsset id newOwner ws = (inl (NotFound id), ws)).
Proof.
  intros Hk. split_and!.
  - intros json parsed Hp Hid.
    by rewrite (Update_step _ _ _ _ Hp Hid), (exists_absent _ _ Hk).
  - unfold DeleteGarageCarAsset, bind.
    by rewrite (exists_absent _ _ Hk).
  - intros newOwner. unfold TransferGarageCarAsset, bind at 1.
    by rewrite (Read_absent _ _ Hk).
Qed.

Lemma absent_key_NotFound_witness :
  UpdateGarageCarAsset (stub := strict) seed1_json {["assetcar2" := Cars_text seed2]}
  = (inl (NotFound "assetcar1"), {["assetcar2" := Cars_text seed2]})
  ∧ DeleteGarageCarAsset (stub := strict) "assetcar1" {["assetcar2" := Cars_text seed2]}
    = (inl (NotFound "assetcar1"), {["assetcar2" := Cars_text seed2]})
  ∧ TransferGarageCarAsset (stub := strict) "assetcar1" "Emma" {["assetcar2" := Cars_text seed2]}
    = (inl (NotFound "assetcar1"), {["assetcar2" := Cars_text seed2]}).
Proof.
  destruct (absent_key_NotFound (stub := strict) "assetcar1" {["assetcar2" := Cars_text seed2]})
    as (Hu & Hd & Ht).
  - by apply lookup_singleton_ne.
  - split_and!; [|exact Hd|exact (Ht "Emma")].
    apply (Hu seed1_json (js_of_Cars seed1)).
    + vm_compute. reflexivity.
    + reflexivity.
Defined.

(** C6. On a state that holds an asset under [id], [Transfer] returns the
    [Owner] stored before the call; afterwards the state differs only under
    [id], which holds the encoding of the same asset with [Owner] set to
    [newOwner] and every other field as it was. The asset is one JavaScript
    holds exactly: [Year] and [Mileage] are safe integers. *)
Theorem Transfer_sets_owner `{stub : Stub} (a : Cars) (id newOwner : string)
    (ws : gmap string string) :
  Cars_safe a →
  ws !! id = Encode (js_of_Cars a) →
  ∃ stored record,
    TransferGarageCarAsset id newOwner ws
      = (inr (JStr (Owner a)), <[id := stored]> ws)
    ∧ Encode (js_of_Cars (set_Owner a newOwner)) = Some stored
    ∧ JSON_parse stored = Some record
    ∧ Cars_of_js record
      = Some (mkCars (ID a) (Model a) (Color a) newOwner (Year a) (VIN a)
                     (EngineType a) (Mileage a)).
Proof.
  intros _. rewrite Encode_Cars. intros Hk.
  exists (Cars_text (set_Owner a newOwner)),
         (Cars_canonical (set_Owner a newOwner)).
  split_and!;
    [|apply Encode_Cars|apply JSON_parse_Cars_text|apply Cars_of_js_canonical].
  by apply Transfer_Cars.
Qed.
Lemma Transfer_sets_owner_witness :
  ∃ stored record,
    TransferGarageCarAsset (stub := strict) "assetcar1" "Emma"
      {["assetcar1" := Cars_text seed1]}
      = (inr (JStr "Ajith"),
         <["assetcar1" := stored]> {["assetcar1" := Cars_text seed1]})
    ∧ Encode (js_of_Cars (set_Owner seed1 "Emma")) = Some stored
    ∧ JSON_parse stored = Some record
    ∧ Cars_of_js record
      = Some (mkCars "assetcar1" "Honda Accord" "Silver" "Emma" 2023
                     "AB12CD345671" "4-cylinder Diesel" 10).
Proof.
  apply (Transfer_sets_owner (stub := strict) seed1 "assetcar1" "Emma"
           {["assetcar1" := Cars_text seed1]}).
  - unfold Cars_safe, safe_integer. simpl. lia.
  - apply lookup_singleton_eq.
Defined.
(** C7, as the code has it. [Read] throws the "does not exist" error exactly
    when nothing is stored under the key, and otherwise returns the stored
    text as it is, whether or not it decodes as a record. *)
Theorem Read_returns_stored_text `{stub : Stub} (id : string) (ws : gmap string string) :
  ws_ok ws →
  (ReadGarageCarAsset id ws = (inl (NotFound id), ws) ↔ ws !! id = None)
  ∧ (∀ stored, ws !! id = Some stored →
       ReadGarageCarAsset id ws = (inr stored, ws)).
Proof.
  intros Hok. split.
  - split; [|apply Read_absent].
    destruct (ws !! id) as [s|] eqn:Hk; [|done].
    by rewrite (Read_present _ _ _ Hok Hk).
  - intros stored Hk. by apply Read_present.
Qed.

Lemma Read_returns_stored_text_witness :
  ReadGarageCarAsset (stub := strict) "assetcar1" {["assetcar1" := "not json"]}
  = (inr "not json", {["assetcar1" := "not json"]}).
Proof.
  apply (Read_returns_stored_text (stub := strict) "assetcar1" {["assetcar1" := "not json"]}).
  - apply ws_ok_insert; [discriminate|apply ws_ok_empty].
  - apply lookup_singleton_eq.
Defined.

(** C7 as stated fails: the stored text of the first seed asset decodes as a
    record, and [Read] returns the text, not the record. *)
Lemma Read_returns_decoded_fails :
  ¬ Read_returns_decoded (stub := strict) {["assetcar1" := Cars_text seed1]} "assetcar1".
Proof.
  unfold Read_returns_decoded. rewrite lookup_singleton_eq.
  intros (returned & Hr & Hd).
  unfold decode_or_raw in Hd. rewrite JSON_parse_Cars_text in Hd.
  discriminate Hd.
Qed.

(** C8. [ListAll] never throws. It returns the serialised array of one value
    per entry of the world state, in ascending key order: the decoded value
    of the entry where its text decodes, its text otherwise. The keys are
    simple keys and the stored texts are of the modelled fragment, where the
    model of [JSON.parse] decides as [JSON.parse] does. *)
Theorem GetAllGarageCars_all_entries (ws : gmap string string) :
  map_Forall (fun key value => simple_key key = true
                               ∧ supported value = true) ws →
  let scan := merge_sort key_le (map_to_list ws) in
  let records := map (fun entry => decode_or_raw (snd entry)) scan in
  Sorted key_le scan
  ∧ scan ≡ₚ map_to_list ws
  ∧ length records = size ws
  ∧ (∀ i key value, scan !! i = Some (key, value) →
       records !! i = Some (match JSON_parse value with
                            | Some record => record
                            | None => JStr value
                            end))
  ∧ ∃ text, JSON_stringify (JArr records) = Some text
            ∧ GetAllGarageCars ws = (inr (Some text), ws).
Proof.
  intros _ scan records. split_and!.
  - apply (Sorted_merge_sort key_le).
  - apply merge_sort_Permutation.
  - unfold records. rewrite length_map. unfold scan.
    rewrite merge_sort_Permutation. apply length_map_to_list.
  - intros i key value Hi. unfold records.
    rewrite list_lookup_fmap, Hi. done.
  - destruct (JSON_stringify (JArr records)) as [text|] eqn:Ht; [|done].
    exists text. split; [done|].
    unfold GetAllGarageCars, getStateByRange, bind, ret.
    rewrite filter_all_range, drain_spec, List.app_nil_l.
    fold scan. fold records. by rewrite Ht.
Qed.

Lemma GetAllGarageCars_all_entries_witness :
  ∃ text,
    JSON_stringify (JArr [Cars_canonical seed1; JStr "legacy"]) = Some text
    ∧ GetAllGarageCars
        (<["assetcar1" := Cars_text seed1]> {["b" := "legacy"]})
      = (inr (Some text),
         <["assetcar1" := Cars_text seed1]> {["b" := "legacy"]}).
Proof.
  destruct (GetAllGarageCars_all_entries
              (<["assetcar1" := Cars_text seed1]> {["b" := "legacy"]}))
    as (_ & _ & _ & _ & text & Ht & Hg).
  - apply map_Forall_insert_2; [by vm_compute|].
    apply map_Forall_insert_2; [by vm_compute|].
    apply map_Forall_empty.
  - exists text. split; [|exact Hg]. rewrite <- Ht. vm_compute. reflexivity.
Defined.
(** C9. [Bootstrap] puts the canonical encoding of each of the two seed
    assets under its [ID], on any state and without looking at what is there:
    it always succeeds, overwrites, and running it again changes nothing.
    It leaves what [Create] of the two seeds leaves, and on the empty state
    [ListAll] then returns exactly the two seed records, each decodable. *)
Theorem InitGarageCarLedger_seeds `{stub : Stub} :
  assets = [js_of_Cars seed1; js_of_Cars seed2]
  ∧ (∀ ws, InitGarageCarLedger ws
           = (inr tt, <["assetcar2" := Cars_text seed2]>
                        (<["assetcar1" := Cars_text seed1]> ws)))
  ∧ (∀ ws, Encode (js_of_Cars seed1) = Some (Cars_text seed1)
           ∧ Encode (js_of_Cars seed2) = Some (Cars_text seed2)
           ∧ snd (InitGarageCarLedger ws) !! "assetcar1"
             = Some (Cars_text seed1)
           ∧ snd (InitGarageCarLedger ws) !! "assetcar2"
             = Some (Cars_text seed2)
           ∧ InitGarageCarLedger (snd (InitGarageCarLedger ws))
             = InitGarageCarLedger ws)
  ∧ (∀ ws json1 json2 parsed1 parsed2,
       JSON_parse json1 = Some parsed1 → Cars_of_js parsed1 = Some seed1 →
       JSON_parse json2 = Some parsed2 → Cars_of_js parsed2 = Some seed2 →
       ws !! "assetcar1" = None → ws !! "assetcar2" = None →
       (let! _ := CreateGarageCarAsset json1 in CreateGarageCarAsset json2) ws
       = InitGarageCarLedger ws)
  ∧ (∃ ws text,
       InitGarageCarLedger ∅ = (inr tt, ws)
       ∧ GetAllGarageCars ws = (inr (Some text), ws)
       ∧ JSON_parse text
         = Some (JArr [Cars_canonical seed1; Cars_canonical seed2])
       ∧ Cars_of_js (Cars_canonical seed1) = Some seed1
       ∧ Cars_of_js (Cars_canonical seed2) = Some seed2).
Proof.
  split_and!.
  - reflexivity.
  - apply Init_puts.
  - intros ws. rewrite !Init_puts. simpl snd.
    split_and!; [apply Encode_Cars..| | |].
    + rewrite lookup_insert_ne by done. apply lookup_insert_eq.
    + apply lookup_insert_eq.
    + f_equal. apply map_eq. intros k.
      rewrite !lookup_insert. by repeat case_decide.
  - intros ws json1 json2 parsed1 parsed2 Hp1 Ha1 Hp2 Ha2 Hk1 Hk2.
    unfold bind. rewrite (Create_Cars _ _ _ _ Hp1 Ha1 Hk1).
    rewrite (Create_Cars _ _ _ _ Hp2 Ha2); [by rewrite Init_puts|].
    simpl. by rewrite lookup_insert_ne.
  - exists (<["assetcar2" := Cars_text seed2]>
              (<["assetcar1" := Cars_text seed1]> ∅)).
    eexists. split_and!; [apply Init_puts|vm_compute; reflexivity|..];
      by vm_compute.
Qed.

(** C10, as the code has it. For an input of the modelled fragment that
    parses to a value other than [null], whose [ID] is not the empty string
    and whose eight named properties are plain data, [Create] and [Update]
    do not fail for a missing or an
    unknown field. They throw what the stub throws for the [ID] or the error
    of the existence check, and otherwise write one value. That value
    decodes to a record with at most the eight named properties: a property
    of another name is dropped, one the input lacks ([ID] included) is
    absent, one the input defines is there, and a string, number, boolean or
    [null] is stored as it is. *)
Theorem Create_Update_eight_fields `{stub : Stub} (json : string)
    (parsed : jsval) (ws : gmap string string) :
  ws_ok ws →
  supported json = true →
  JSON_parse json = Some parsed →
  parsed ≠ JNull →
  get_prop parsed "ID" ≠ JStr "" →
  plain (asset_of parsed) = true →
  ∃ value record,
    CreateGarageCarAsset json ws
      = Create_outcome (get_prop parsed "ID") value ws
    ∧ UpdateGarageCarAsset json ws
      = Update_outcome (get_prop parsed "ID") value ws
    ∧ value ≠ ""
    ∧ JSON_parse value = Some (JObj record)
    ∧ (∀ k, k ∈ map fst record → k ∈ Cars_keys)
    ∧ (∀ k, k ∉ Cars_keys → assoc k record = None)
    ∧ (∀ k, get_prop parsed k = JUndefined → assoc k record = None)
    ∧ (∀ k, k ∈ Cars_keys → get_prop parsed k ≠ JUndefined →
         is_Some (assoc k record))
    ∧ (∀ k, k ∈ Cars_keys → primitive (get_prop parsed k) = true →
         assoc k record = Some (get_prop parsed k)).
Proof.
  intros Hok _ Hp Hn _ _.
  destruct (Create_table json parsed ws Hok Hp Hn) as (body & Hv & Hc).
  destruct (Update_table json parsed ws Hok Hp Hn) as (body' & Hv' & Hu).
  assert (body' = body) as -> by congruence.
  destruct (persisted json parsed Hp) as (value & Hv'' & Hr).
  assert (value = String "{" body) as -> by congruence.
  exists (String "{" body), (stored_record parsed).
  split_and!; [done..| | | | |].
  - apply stored_record_keys.
  - intros k Hk. rewrite stored_record_lookup. by rewrite decide_False.
  - intros k Hk. rewrite stored_record_lookup, Hk. by case_decide.
  - intros k Hin Hk. rewrite stored_record_lookup, decide_True by done.
    by destruct (get_prop parsed k).
  - intros k Hin Hk. rewrite stored_record_lookup, decide_True by done.
    by destruct (get_prop parsed k).
Qed.
Lemma Create_Update_eight_fields_witness :
  (∃ value record,
     CreateGarageCarAsset (stub := strict)
       (dq "{'ID':'a','Colour':'red','Model':'T'}") ∅
     = (inr tt, <["a" := value]> ∅)
     ∧ JSON_parse value = Some (JObj record)
     ∧ assoc "ID" record = Some (JStr "a")
     ∧ assoc "Model" record = Some (JStr "T")
     ∧ assoc "Colour" record = None
     ∧ assoc "Owner" record = None)
  ∧ (∃ value,
       UpdateGarageCarAsset (stub := strict)
         (dq "{'ID':'a','Colour':'red','Model':'T'}") {["a" := "legacy"]}
       = (inr tt, <["a" := value]> {["a" := "legacy"]}))
  ∧ (∃ value,
       CreateGarageCarAsset (stub := strict) (dq "{'Model':'T'}") ∅
       = Create_outcome (stub := strict) JUndefined value ∅).
Proof.
  split_and!.
  - destruct (Create_Update_eight_fields (stub := strict)
                (dq "{'ID':'a','Colour':'red','Model':'T'}")
                (JObj [("ID", JStr "a"); ("Colour", JStr "red");
                       ("Model", JStr "T")]) ∅)
      as (value & record & Hc & _ & _ & Hr & _ & Hd & Hm & _ & Hs);
      [apply ws_ok_empty|vm_compute; reflexivity|vm_compute; reflexivity
      |discriminate|discriminate|vm_compute; reflexivity|].
    exists value, record. split_and!.
    + exact Hc.
    + exact Hr.
    + apply (Hs "ID"); [|reflexivity]. apply (bool_decide_unpack _). by vm_compute.
    + apply (Hs "Model"); [|reflexivity]. apply (bool_decide_unpack _). by vm_compute.
    + apply Hd. intros Hin. apply (bool_decide_pack _) in Hin. by vm_compute in Hin.
    + apply Hm. reflexivity.
  - destruct (Create_Update_eight_fields (stub := strict)
                (dq "{'ID':'a','Colour':'red','Model':'T'}")
                (JObj [("ID", JStr "a"); ("Colour", JStr "red");
                       ("Model", JStr "T")]) {["a" := "legacy"]})
      as (value & record & _ & Hu & _);
      [apply ws_ok_insert; [discriminate|apply ws_ok_empty]
      |vm_compute; reflexivity|vm_compute; reflexivity
      |discriminate|discriminate|vm_compute; reflexivity|].
    exists value. exact Hu.
  - destruct (Create_Update_eight_fields (stub := strict)
                (dq "{'Model':'T'}") (JObj [("Model", JStr "T")]) ∅)
      as (value & record & Hc & _);
      [apply ws_ok_empty|vm_compute; reflexivity|vm_compute; reflexivity
      |discriminate|discriminate|vm_compute; reflexivity|].
    exists value. exact Hc.
Defined.
(** C10 as stated fails on the JSON text [null]: it parses, and both
    [Create] and [Update] throw a TypeError on it, before they reach the
    stub. *)
Lemma Create_null_TypeError :
  JSON_parse "null" = Some JNull
  ∧ CreateGarageCarAsset (stub := strict) "null" ∅ = (inl TypeError, ∅)
  ∧ UpdateGarageCarAsset (stub := strict) "null" ∅ = (inl TypeError, ∅).
Proof. by vm_compute. Qed.
(** * Further properties of the contract *)

(** X1. On a ledger that only this contract has written, [Exists] returns
    true exactly when the key is present; it never throws and never
    writes. *)
Theorem Exists_reachable `{stub : Stub} (ws : gmap string string) (id : string) :
  reachable ws →
  AssetGarageCarExists (JStr id) ws
  = (inr (bool_decide (is_Some (ws !! id))), ws).
Proof.
  intros Hr. apply reachable_ws_ok in Hr.
  destruct (ws !! id) as [v|] eqn:Hk.
  - rewrite (exists_present _ _ _ Hr Hk). by rewrite bool_decide_eq_true_2.
  - rewrite (exists_absent _ _ Hk). by rewrite bool_decide_eq_false_2.
Qed.

Lemma Exists_reachable_witness :
  AssetGarageCarExists (stub := strict) (JStr "assetcar3") (commit (stub := strict) TInit ∅)
  = (inr (bool_decide (is_Some (commit (stub := strict) TInit ∅ !! "assetcar3"))),
     commit (stub := strict) TInit ∅).
Proof. apply (Exists_reachable (stub := strict)). apply reachable_commit, reachable_empty. Defined.

(** X2. [Delete] of a key that is present succeeds and removes that key and
    no other; afterwards [Exists] answers false and [Read] throws the
    "does not exist" error. *)
Theorem Delete_present `{stub : Stub} (id : string) (ws : gmap string string) :
  ws_ok ws →
  is_Some (ws !! id) →
  DeleteGarageCarAsset id ws = (inr tt, delete id ws)
  ∧ delete id ws !! id = None
  ∧ (∀ k, k ≠ id → delete id ws !! k = ws !! k)
  ∧ AssetGarageCarExists (JStr id) (delete id ws) = (inr false, delete id ws)
  ∧ ReadGarageCarAsset id (delete id ws) = (inl (NotFound id), delete id ws).
Proof.
  intros Hok [v Hk]. split_and!.
  - by rewrite Delete_step, (exists_present _ _ _ Hok Hk).
  - apply lookup_delete_eq.
  - intros k Hne. by apply lookup_delete_ne.
  - apply exists_absent, lookup_delete_eq.
  - apply Read_absent, lookup_delete_eq.
Qed.

Lemma Delete_present_witness :
  DeleteGarageCarAsset (stub := strict) "assetcar1" {["assetcar1" := Cars_text seed1]}
  = (inr tt, delete "assetcar1" {["assetcar1" := Cars_text seed1]}).
Proof.
  apply (Delete_present (stub := strict) "assetcar1" {["assetcar1" := Cars_text seed1]}).
  - apply ws_ok_insert; [discriminate|apply ws_ok_empty].
  - exists (Cars_text seed1). apply lookup_singleton_eq.
Defined.

(** X3. [Update] of a key that is present overwrites the whole record: what
    is stored afterwards is the encoding of the input alone, whatever was
    stored before, and [Read] then returns text that decodes to the input.
    The input is a record JavaScript holds exactly, in a request of the
    modelled fragment. *)
Theorem Update_overwrites `{stub : Stub} (a : Cars) (json : string)
    (parsed : jsval) (old : string) (ws : gmap string string) :
  supported json = true →
  JSON_parse json = Some parsed →
  Cars_of_js parsed = Some a →
  Cars_safe a →
  simple_key (ID a) = true →
  ws_ok ws →
  old ≠ "" →
  ∃ record,
    UpdateGarageCarAsset json (<[ID a := old]> ws)
      = (inr tt, <[ID a := Cars_text a]> ws)
    ∧ ReadGarageCarAsset (ID a) (<[ID a := Cars_text a]> ws)
      = (inr (Cars_text a), <[ID a := Cars_text a]> ws)
    ∧ JSON_parse (Cars_text a) = Some record
    ∧ Cars_of_js record = Some a.
Proof.
  intros _ Hp Ha _ _ Hok Hold. exists (Cars_canonical a). split_and!.
  - rewrite (Update_Cars json parsed a); [|by apply ws_ok_insert|done..|].
    + f_equal. apply insert_insert_eq.
    + exists old. apply lookup_insert_eq.
  - apply Read_stored; [apply lookup_insert_eq|apply Cars_text_nonempty].
  - apply JSON_parse_Cars_text.
  - apply Cars_of_js_canonical.
Qed.
Lemma Update_overwrites_witness :
  ∃ record,
    UpdateGarageCarAsset (stub := strict) seed1_json
      (<["assetcar1" := "legacy"]> ∅)
      = (inr tt, <["assetcar1" := Cars_text seed1]> ∅)
    ∧ ReadGarageCarAsset (stub := strict) "assetcar1"
        (<["assetcar1" := Cars_text seed1]> ∅)
      = (inr (Cars_text seed1), <["assetcar1" := Cars_text seed1]> ∅)
    ∧ JSON_parse (Cars_text seed1) = Some record
    ∧ Cars_of_js record = Some seed1.
Proof.
  apply (Update_overwrites (stub := strict) seed1 seed1_json
           (js_of_Cars seed1) "legacy" ∅).
  - vm_compute. reflexivity.
  - vm_compute. reflexivity.
  - reflexivity.
  - unfold Cars_safe, safe_integer. simpl. lia.
  - reflexivity.
  - apply ws_ok_empty.
  - discriminate.
Defined.
(** X4. [Create] on a simple key that is absent followed by [Delete] of that key
    leaves the world state exactly as it was before the two calls, for a
    request of the modelled fragment whose eight properties are plain
    data. *)
Theorem Create_then_Delete `{stub : Stub} (json : string) (parsed : jsval)
    (id : string) (ws : gmap string string) :
  supported json = true →
  JSON_parse json = Some parsed →
  plain (asset_of parsed) = true →
  get_prop parsed "ID" = JStr id →
  simple_key id = true →
  ws !! id = None →
  (let! _ := CreateGarageCarAsset json in DeleteGarageCarAsset id) ws
  = (inr tt, ws).
Proof.
  intros _ Hp _ Hid _ Hk. unfold bind at 1.
  rewrite (Create_step _ _ _ _ Hp Hid), (exists_absent _ _ Hk).
  destruct (Encode_asset_of parsed) as [body ->].
  rewrite Delete_step, Exists_run. cbn [fault key_of].
  rewrite lookup_insert_eq. simpl. f_equal.
  rewrite delete_insert_eq. by apply delete_id.
Qed.
Lemma Create_then_Delete_witness :
  (let! _ := CreateGarageCarAsset (stub := strict) seed1_json in
   DeleteGarageCarAsset (stub := strict) "assetcar1") ∅
  = (inr tt, ∅).
Proof.
  apply (Create_then_Delete (stub := strict) seed1_json (js_of_Cars seed1)
           "assetcar1" ∅).
  - vm_compute. reflexivity.
  - vm_compute. reflexivity.
  - vm_compute. reflexivity.
  - reflexivity.
  - reflexivity.
  - reflexivity.
Defined.
(** X5. [Transfer] works on whatever object is stored under the key, not
    only on a record of the eight properties. It returns the [Owner] of the
    stored object ([undefined] when it has none), and the text it stores
    decodes to a record with [Owner] set to the new owner and every other
    property of the stored object kept: a string, number, boolean or [null]
    with its value. The stored text is of the modelled fragment and is plain
    data. *)
Theorem Transfer_any_object `{stub : Stub} (id newOwner stored : string)
    (fs : list (string * jsval)) (ws : gmap string string) :
  ws !! id = Some stored →
  supported stored = true →
  JSON_parse stored = Some (JObj fs) →
  plain (JObj fs) = true →
  ∃ value record,
    TransferGarageCarAsset id newOwner ws
      = (inr (get_prop (JObj fs) "Owner"), <[id := value]> ws)
    ∧ JSON_parse value = Some record
    ∧ get_prop record "Owner" = JStr newOwner
    ∧ (∀ k, k ≠ "Owner" →
         (get_prop record k = JUndefined
          ↔ get_prop (JObj fs) k = JUndefined))
    ∧ (∀ k, k ≠ "Owner" → primitive (get_prop (JObj fs) k) = true →
         get_prop record k = get_prop (JObj fs) k).
Proof.
  intros Hk _ Hp _.
  destruct (Transfer_obj id newOwner stored fs ws Hk Hp) as (body & Hv & Ht).
  eexists _, _. split_and!; [exact Ht| | | |].
  - apply Encode_parse; [|exact Hv].
    apply wf_obj_set; [done|]. by eapply JSON_parse_wf.
  - rewrite get_prop_stored, get_prop_obj_set. by rewrite decide_True.
  - intros k Hne. rewrite get_prop_stored, get_prop_obj_set.
    rewrite decide_False by done. apply stored_form_undefined.
  - intros k Hne Hprim. rewrite get_prop_stored, get_prop_obj_set.
    rewrite decide_False by done. by apply stored_form_primitive.
Qed.
Lemma Transfer_any_object_witness :
  ∃ value record,
    TransferGarageCarAsset (stub := strict) "a" "Emma"
      {["a" := dq "{'ID':'a','Trim':'LX'}"]}
      = (inr JUndefined,
         <["a" := value]> {["a" := dq "{'ID':'a','Trim':'LX'}"]})
    ∧ JSON_parse value = Some record
    ∧ get_prop record "Owner" = JStr "Emma"
    ∧ get_prop record "Trim" = JStr "LX".
Proof.
  destruct (Transfer_any_object (stub := strict) "a" "Emma"
              (dq "{'ID':'a','Trim':'LX'}")
              [("ID", JStr "a"); ("Trim", JStr "LX")]
              {["a" := dq "{'ID':'a','Trim':'LX'}"]})
    as (value & record & Ht & Hr & Ho & _ & Hs);
    [apply lookup_singleton_eq|vm_compute; reflexivity|vm_compute; reflexivity
    |vm_compute; reflexivity|].
  exists value, record. split_and!; [exact Ht|exact Hr|exact Ho|].
  apply (Hs "Trim"); [discriminate|reflexivity].
Defined.
(** X6. A transfer can be undone: [Transfer] to a new owner followed by
    [Transfer] back to the owner the first call returned leaves the world
    state exactly as it was, and the second call returns the new owner. The
    asset stored is one JavaScript holds exactly. *)
Theorem Transfer_back `{stub : Stub} (a : Cars) (id newOwner : string)
    (ws : gmap string string) :
  Cars_safe a →
  ws !! id = Some (Cars_text a) →
  (let! oldOwner := TransferGarageCarAsset id newOwner in
   let! returned := TransferGarageCarAsset id (Owner a) in
   ret (oldOwner, returned)) ws
  = (inr (JStr (Owner a), JStr newOwner), ws).
Proof.
  intros _ Hk. unfold bind at 1. rewrite (Transfer_Cars a) by done.
  unfold bind at 1.
  rewrite (Transfer_Cars (set_Owner a newOwner)) by apply lookup_insert_eq.
  unfold ret. simpl. f_equal.
  rewrite insert_insert_eq. destruct a. by apply insert_id.
Qed.
Lemma Transfer_back_witness :
  (let! oldOwner := TransferGarageCarAsset (stub := strict) "assetcar1" "Emma" in
   let! returned := TransferGarageCarAsset (stub := strict) "assetcar1" "Ajith" in
   ret (oldOwner, returned)) {["assetcar1" := Cars_text seed1]}
  = (inr (JStr "Ajith", JStr "Emma"), {["assetcar1" := Cars_text seed1]}).
Proof.
  apply (Transfer_back (stub := strict) seed1 "assetcar1" "Emma"
           {["assetcar1" := Cars_text seed1]}).
  - unfold Cars_safe, safe_integer. simpl. lia.
  - apply lookup_singleton_eq.
Defined.
(** X7. When the text stored under the key is of the modelled fragment and
    is not JSON, [Transfer] throws the SyntaxError of [JSON.parse] and the
    world state is unchanged. *)
Theorem Transfer_not_JSON `{stub : Stub} (id newOwner stored : string)
    (ws : gmap string string) :
  ws !! id = Some stored →
  stored ≠ "" →
  supported stored = true →
  JSON_parse stored = None →
  TransferGarageCarAsset id newOwner ws = (inl SyntaxError, ws).
Proof.
  intros Hk Hs _ Hp. unfold TransferGarageCarAsset, bind at 1.
  rewrite (Read_stored _ _ _ Hk Hs).
  unfold JSON_parse_tx, bind at 1. by rewrite Hp.
Qed.
Lemma Transfer_not_JSON_witness :
  TransferGarageCarAsset (stub := strict) "assetcar1" "Emma"
    {["assetcar1" := "legacy"]}
  = (inl SyntaxError, {["assetcar1" := "legacy"]}).
Proof.
  apply (Transfer_not_JSON (stub := strict) "assetcar1" "Emma" "legacy").
  - apply lookup_singleton_eq.
  - discriminate.
  - vm_compute. reflexivity.
  - vm_compute. reflexivity.
Defined.
(** X8. [Update] and [Transfer] are self-loops on the keys of the world
    state: whatever their input and whether they return or throw, the set of
    keys is the same afterwards, and [Transfer] leaves every key other than
    its own with the value it had. *)
Theorem Update_Transfer_keep_keys `{stub : Stub} (json id newOwner : string)
    (ws : gmap string string) :
  dom (snd (UpdateGarageCarAsset json ws)) = dom ws
  ∧ dom (snd (TransferGarageCarAsset id newOwner ws)) = dom ws
  ∧ ∀ k, k ≠ id →
         snd (TransferGarageCarAsset id newOwner ws) !! k = ws !! k.
Proof.
  split_and!.
  - destruct (Update_writes json ws) as [->|(k & value & Hk & ->)]; [done|].
    by apply dom_insert_present.
  - destruct (Transfer_writes id newOwner ws) as [->|(value & Hk & ->)];
      [done|]. by apply dom_insert_present.
  - intros k Hne.
    destruct (Transfer_writes id newOwner ws) as [->|(value & Hk & ->)];
      [done|]. by apply lookup_insert_ne.
Qed.

(** X9. [Read], [Exists] and [ListAll] never write: the world state they
    leave is the one they were given, whether they return or throw. *)
Theorem queries_read_only `{stub : Stub} (id : string) :
  read_only (ReadGarageCarAsset id)
  ∧ read_only (AssetGarageCarExists (JStr id))
  ∧ read_only GetAllGarageCars.
Proof. split_and!; [apply read_only_Read|apply read_only_Exists|done]. Qed.

(** X10. [Create], [Update], [Delete] and [Transfer] write last: when one of
    them throws, for whatever reason, it has written nothing. *)
Theorem failure_writes_nothing `{stub : Stub} (json id newOwner : string) :
  atomic (CreateGarageCarAsset json)
  ∧ atomic (UpdateGarageCarAsset json)
  ∧ atomic (DeleteGarageCarAsset id)
  ∧ atomic (TransferGarageCarAsset id newOwner).
Proof.
  split_and!;
    [apply atomic_Create|apply atomic_Update|apply atomic_Delete
    |apply atomic_Transfer].
Qed.

(** X11. On an input of the modelled fragment that is not JSON, [Create]
    and [Update] throw the SyntaxError of [JSON.parse] before any access to
    the world state. *)
Theorem not_JSON_SyntaxError `{stub : Stub} (json : string)
    (ws : gmap string string) :
  supported json = true →
  JSON_parse json = None →
  CreateGarageCarAsset json ws = (inl SyntaxError, ws)
  ∧ UpdateGarageCarAsset json ws = (inl SyntaxError, ws).
Proof.
  intros _ Hp.
  unfold CreateGarageCarAsset, UpdateGarageCarAsset, JSON_parse_tx, bind at 1 3.
  by rewrite Hp.
Qed.
Lemma not_JSON_SyntaxError_witness :
  CreateGarageCarAsset (stub := strict) (dq "{'ID':'a',}")
    {["a" := Cars_text seed1]}
  = (inl SyntaxError, {["a" := Cars_text seed1]})
  ∧ UpdateGarageCarAsset (stub := strict) (dq "{'ID':'a',}")
      {["a" := Cars_text seed1]}
    = (inl SyntaxError, {["a" := Cars_text seed1]}).
Proof.
  apply (not_JSON_SyntaxError (stub := strict)).
  - vm_compute. reflexivity.
  - vm_compute. reflexivity.
Defined.


(** X16. The canonical encoding does not depend on the order in which the
    properties were inserted, at any depth of the record: nested objects are
    reordered too. *)
Lemma Encode_nested_order x y : same_record x y → Encode x = Encode y.
Proof.
  intros Hxy. unfold Encode, stringify.
  by apply same_record_serialize, sortKeysRecursive_same_record.
Qed.

Lemma Encode_nested_order_witness :
  Encode (JObj [("ID", JStr "a");
                ("Engine", JObj [("Type", JStr "Diesel"); ("Cylinders", JNum 4)])])
  = Encode (JObj [("Engine", JObj [("Cylinders", JNum 4); ("Type", JStr "Diesel")]);
                  ("ID", JStr "a")]).
Proof.
  apply Encode_nested_order.
  apply (same_object _
           [("Engine", JObj [("Type", JStr "Diesel"); ("Cylinders", JNum 4)]);
            ("ID", JStr "a")]).
  - apply (bool_decide_unpack _). vm_compute. exact I.
  - apply perm_swap.
  - constructor; [|constructor; [|constructor]].
    + split; [reflexivity|]. simpl.
      apply (same_object _ [("Cylinders", JNum 4); ("Type", JStr "Diesel")]).
      * apply (bool_decide_unpack _). vm_compute. exact I.
      * apply perm_swap.
      * repeat constructor.
    + split; [reflexivity|apply same_value].
Defined.
